(** * EV pooling service: the in-memory core of [main.go]

    The service keeps three pieces of process memory: the fleet with the
    remaining seats of every vehicle, the queue of waiting groups and the
    table that maps a riding group to its vehicle.  This file embeds the
    repositories, the vehicle service and the four HTTP handlers of
    [main.go] as functions over that memory and proves what they do.

    Go's [int] is the 64-bit two's-complement integer of the build target
    ([golang:1.20] on a 64-bit Linux image); arithmetic wraps around. *)

From Stdlib Require Import ZArith List Bool String Lia.
From stdpp Require Import gmap list strings.

Local Open Scope Z_scope.

(** ** Go's [int] *)

Module GoInt.

Definition bits : Z := 64.
Definition min_int : Z := - 2 ^ (bits - 1).
Definition max_int : Z := 2 ^ (bits - 1) - 1.

Definition in_range (z : Z) : Prop := min_int <= z <= max_int.

(** Reduction of a mathematical integer to the value an [int] holds. *)
Definition wrap (z : Z) : Z := (z - min_int) mod 2 ^ bits + min_int.

(** [x - y] on [int]. *)
Definition sub (x y : Z) : Z := wrap (x - y).

End GoInt.

(** ** Data model *)

Module Vehicle.
Record t : Type := mk { ID : Z; Seats : Z }.
End Vehicle.

Module Group.
Record t : Type := mk { ID : Z; People : Z }.

(** The zero value [Group{}]. *)
Definition zero : t := mk 0 0.
End Group.

(** The payload of the one event the service emits, [VehicleAssigned]. *)
Record Event : Type := { Type_ : string; group_id : Z; vehicle_id : Z }.

Record InMemoryVehicleRepository : Type :=
  { vehicles : list Vehicle.t }.

Record InMemoryGroupRepository : Type :=
  { groupsQueue : list Group.t;
    groupToCar : gmap Z Z }.

(** ** [InMemoryVehicleRepository] *)

Definition GetAllVehicles (repo : InMemoryVehicleRepository) : list Vehicle.t :=
  vehicles repo.

Definition SaveVehicles (repo : InMemoryVehicleRepository)
    (vs : list Vehicle.t) : InMemoryVehicleRepository :=
  {| vehicles := vs |}.

(** The loop of [UpdateVehicleSeats]: the first vehicle with the id gets the
    new seat count and the loop breaks; no vehicle with the id, no change. *)
Fixpoint update_seats (vs : list Vehicle.t) (vehicleID seats : Z) : list Vehicle.t :=
  match vs with
  | [] => []
  | v :: rest =>
      if Vehicle.ID v =? vehicleID
      then Vehicle.mk (Vehicle.ID v) seats :: rest
      else v :: update_seats rest vehicleID seats
  end.

Definition UpdateVehicleSeats (repo : InMemoryVehicleRepository)
    (vehicleID seats : Z) : InMemoryVehicleRepository :=
  {| vehicles := update_seats (vehicles repo) vehicleID seats |}.

(** ** [InMemoryGroupRepository] *)

Definition AddGroup (repo : InMemoryGroupRepository) (group : Group.t)
    : InMemoryGroupRepository :=
  {| groupsQueue := groupsQueue repo ++ [group];
     groupToCar := groupToCar repo |}.

(** Index of the first group of the queue with the given id. *)
Fixpoint index_of (q : list Group.t) (groupID : Z) : option nat :=
  match q with
  | [] => None
  | g :: rest =>
      if Group.ID g =? groupID then Some O
      else option_map S (index_of rest groupID)
  end.

(** [RemoveGroup]: on a hit at index [i] the queue becomes
    [append(queue[:i], queue[i+1:]...)] and the result is [true]; when the
    loop finds nothing the id is deleted from [groupToCar] and the result is
    [false]. *)
Definition RemoveGroup (repo : InMemoryGroupRepository) (groupID : Z)
    : InMemoryGroupRepository * bool :=
  match index_of (groupsQueue repo) groupID with
  | Some i =>
      ({| groupsQueue := take i (groupsQueue repo) ++ drop (S i) (groupsQueue repo);
          groupToCar := groupToCar repo |}, true)
  | None =>
      ({| groupsQueue := groupsQueue repo;
          groupToCar := delete groupID (groupToCar repo) |}, false)
  end.

(** [FindGroup] searches the waiting queue only. *)
Fixpoint find_group (q : list Group.t) (groupID : Z) : Group.t * bool :=
  match q with
  | [] => (Group.zero, false)
  | g :: rest =>
      if Group.ID g =? groupID then (g, true) else find_group rest groupID
  end.

Definition FindGroup (repo : InMemoryGroupRepository) (groupID : Z)
    : Group.t * bool :=
  find_group (groupsQueue repo) groupID.

Definition GetNextWaitingGroup (repo : InMemoryGroupRepository) : Group.t * bool :=
  match groupsQueue repo with
  | g :: _ => (g, true)
  | [] => (Group.zero, false)
  end.

(** ** [EventBus]

    A listener is a [func(Event)]; the bus only stores listeners and starts
    them, so its model is generic in what a listener is.  [Emit] starts one
    goroutine per listener registered under the event's type; the result
    lists those calls in the order the loop starts them. *)
Record EventBus (L : Type) : Type :=
  { listeners : gmap string (list L) }.

Arguments listeners {L} _.

Definition NewEventBus {L : Type} : EventBus L :=
  {| listeners := ∅ |}.

(** [eb.listeners[eventType] = append(eb.listeners[eventType], listener)]: a
    type with no entry yet reads as the nil slice. *)
Definition Register {L : Type} (eb : EventBus L) (eventType : string)
    (listener : L) : EventBus L :=
  {| listeners :=
       <[eventType := default [] (listeners eb !! eventType) ++ [listener]]>
         (listeners eb) |}.

Definition Emit {L : Type} (eb : EventBus L) (event : Event) : list (L * Event) :=
  match listeners eb !! Type_ event with
  | Some handlers => map (fun handler => (handler, event)) handlers
  | None => []
  end.

(** ** [VehicleService] *)

Definition VehicleAssigned (group : Group.t) (vehicleID : Z) : Event :=
  {| Type_ := "VehicleAssigned";
     group_id := Group.ID group;
     vehicle_id := vehicleID |}.

(** The loop of [AssignVehicleToGroup] over the slice [GetAllVehicles]
    returned, here the vehicles still to visit.  The update goes back to the
    repository by vehicle id, not by the index the loop stands at.  The
    second component lists the events passed to [EventBus.Emit]; the
    listeners the bus starts only log. *)
Fixpoint assign_scan (repo : InMemoryVehicleRepository) (todo : list Vehicle.t)
    (group : Group.t) : InMemoryVehicleRepository * list Event * (Z * bool) :=
  match todo with
  | [] => (repo, [], (0, false))
  | v :: rest =>
      if Vehicle.Seats v >=? Group.People group
      then (UpdateVehicleSeats repo (Vehicle.ID v)
              (GoInt.sub (Vehicle.Seats v) (Group.People group)),
            [VehicleAssigned group (Vehicle.ID v)],
            (Vehicle.ID v, true))
      else assign_scan repo rest group
  end.

Definition AssignVehicleToGroup (repo : InMemoryVehicleRepository)
    (group : Group.t) : InMemoryVehicleRepository * list Event * (Z * bool) :=
  assign_scan repo (GetAllVehicles repo) group.

Definition ReleaseVehicleSeats (repo : InMemoryVehicleRepository)
    (vehicleID seats : Z) : InMemoryVehicleRepository :=
  UpdateVehicleSeats repo vehicleID seats.

(** ** The handlers of [main]

    [App] is the memory the closures of [main] share.  [events] records, oldest
    first, what has been emitted on the bus.  A handler whose
    [ShouldBindJSON] fails answers 400 before it touches anything; the
    handlers below take the decoded payload. *)

Record App : Type :=
  { vehicleRepo : InMemoryVehicleRepository;
    groupRepo : InMemoryGroupRepository;
    events : list Event }.

Inductive Response : Type :=
| EVsRegistered                 (* 200 "EVs registered successfully" *)
| JourneyStarted (car_id : Z)   (* 200 "Journey started" *)
| AddedToWaitlist               (* 202 "Added to waitlist" *)
| GroupDroppedOff               (* 200 "Group dropped off" *)
| GroupNotFound                 (* 404 "Group not found" *)
| Located (car_id : Z)          (* 200 with the car id *)
| NoContent.                    (* 204 *)

(** What [main] builds before it serves. *)
Definition initial : App :=
  {| vehicleRepo := {| vehicles := [] |};
     groupRepo := {| groupsQueue := []; groupToCar := ∅ |};
     events := [] |}.

(** [PUT /evs] *)
Definition evs_handler (app : App) (newVehicles : list Vehicle.t) : App * Response :=
  ({| vehicleRepo := SaveVehicles (vehicleRepo app) newVehicles;
      groupRepo := {| groupsQueue := []; groupToCar := ∅ |};
      events := events app |},
   EVsRegistered).

(** [POST /journey] *)
Definition journey_handler (app : App) (group : Group.t) : App * Response :=
  let '(vrepo, emitted, (carID, assigned)) :=
    AssignVehicleToGroup (vehicleRepo app) group in
  if assigned
  then ({| vehicleRepo := vrepo;
           groupRepo :=
             {| groupsQueue := groupsQueue (groupRepo app);
                groupToCar := <[Group.ID group := carID]> (groupToCar (groupRepo app)) |};
           events := events app ++ emitted |},
        JourneyStarted carID)
  else ({| vehicleRepo := vrepo;
           groupRepo := AddGroup (groupRepo app) group;
           events := events app ++ emitted |},
        AddedToWaitlist).

(** [POST /dropoff] *)
Definition dropoff_handler (app : App) (id : Z) : App * Response :=
  match groupToCar (groupRepo app) !! id with
  | Some carID =>
      let '(group, _) := FindGroup (groupRepo app) id in
      ({| vehicleRepo :=
            ReleaseVehicleSeats (vehicleRepo app) carID (Group.People group);
          groupRepo :=
            {| groupsQueue := groupsQueue (groupRepo app);
               groupToCar := delete id (groupToCar (groupRepo app)) |};
          events := events app |},
       GroupDroppedOff)
  | None => (app, GroupNotFound)
  end.

(** [POST /locate] *)
Definition locate_handler (app : App) (id : Z) : App * Response :=
  match groupToCar (groupRepo app) !! id with
  | Some carID => (app, Located carID)
  | None => (app, NoContent)
  end.

(** ** Runs of the service *)

Inductive Request : Type :=
| PutEvs (newVehicles : list Vehicle.t)
| PostJourney (group : Group.t)
| PostDropoff (id : Z)
| PostLocate (id : Z).

Definition handle (app : App) (req : Request) : App * Response :=
  match req with
  | PutEvs vs => evs_handler app vs
  | PostJourney g => journey_handler app g
  | PostDropoff id => dropoff_handler app id
  | PostLocate id => locate_handler app id
  end.

(** The memory after serving the requests one after the other. *)
Fixpoint run (app : App) (reqs : list Request) : App :=
  match reqs with
  | [] => app
  | req :: rest => run (fst (handle app req)) rest
  end.

(** The answers given along the way. *)
Fixpoint responses (app : App) (reqs : list Request) : list Response :=
  match reqs with
  | [] => []
  | req :: rest => snd (handle app req) :: responses (fst (handle app req)) rest
  end.

(** ** Statements about the service

    [first_fit fleet people pre v post]: [v] is the first vehicle of the
    fleet, in registration order, with at least [people] remaining seats. *)
Definition first_fit (fleet : list Vehicle.t) (people : Z)
    (pre : list Vehicle.t) (v : Vehicle.t) (post : list Vehicle.t) : Prop :=
  fleet = pre ++ v :: post /\
  Forall (fun u => Vehicle.Seats u < people) pre /\
  people <= Vehicle.Seats v.

Definition fits (people : Z) (v : Vehicle.t) : Prop :=
  people <= Vehicle.Seats v.

Definition vehicle_ids (fleet : list Vehicle.t) : list Z :=
  map Vehicle.ID fleet.

(** A group with the id is in the waiting queue / has a vehicle. *)
Definition waiting (repo : InMemoryGroupRepository) (id : Z) : Prop :=
  exists g, g ∈ groupsQueue repo /\ Group.ID g = id.

Definition riding (repo : InMemoryGroupRepository) (id : Z) : Prop :=
  is_Some (groupToCar repo !! id).

(** The fleet and the answer [AssignVehicleToGroup] leaves. *)
Definition fleet_after (r : InMemoryVehicleRepository * list Event * (Z * bool))
    : list Vehicle.t :=
  vehicles (fst (fst r)).

Definition answer (r : InMemoryVehicleRepository * list Event * (Z * bool))
    : Z * bool :=
  snd r.

(** First fit read over every fleet: whenever some vehicle fits, the first
    one that fits is returned and its seats go down by the people count. *)
Definition first_fit_any_fleet (fleet : list Vehicle.t) (group : Group.t) : Prop :=
  (exists u, u ∈ fleet /\ fits (Group.People group) u) ->
  exists pre v post,
    first_fit fleet (Group.People group) pre v post /\
    answer (AssignVehicleToGroup {| vehicles := fleet |} group) = (Vehicle.ID v, true) /\
    fleet_after (AssignVehicleToGroup {| vehicles := fleet |} group)
    = pre ++ Vehicle.mk (Vehicle.ID v) (Vehicle.Seats v - Group.People group) :: post.

(** A people count of zero or less read over every non-empty fleet: the
    first vehicle that fits is returned, and a negative count leaves it
    with more seats than before. *)
Definition nonpositive_people_any_fleet (fleet : list Vehicle.t) (group : Group.t)
    : Prop :=
  fleet <> [] ->
  Group.People group <= 0 ->
  exists pre v post,
    first_fit fleet (Group.People group) pre v post /\
    answer (AssignVehicleToGroup {| vehicles := fleet |} group) = (Vehicle.ID v, true) /\
    (Group.People group < 0 ->
     exists seats,
       fleet_after (AssignVehicleToGroup {| vehicles := fleet |} group)
       = pre ++ Vehicle.mk (Vehicle.ID v) seats :: post /\
       Vehicle.Seats v < seats).

(** A journey request no vehicle can take, read over every state of the
    ledger: the group is put on the waitlist, can be found in the queue and
    has no entry in the assignment table. *)
Definition no_fit_any_ledger (app : App) (group : Group.t) : Prop :=
  Forall (fun u => Vehicle.Seats u < Group.People group) (vehicles (vehicleRepo app)) ->
  snd (journey_handler app group) = AddedToWaitlist /\
  snd (FindGroup (groupRepo (fst (journey_handler app group))) (Group.ID group)) = true /\
  ~ riding (groupRepo (fst (journey_handler app group))) (Group.ID group).

(** Drop-off read as removing a waiting group from the queue. *)
Definition dropoff_removes_waiting (app : App) (id : Z) : Prop :=
  waiting (groupRepo app) id ->
  ~ waiting (groupRepo (fst (dropoff_handler app id))) id.

(** [RemoveGroup] read as leaving the assignment table alone. *)
Definition remove_keeps_table (repo : InMemoryGroupRepository) (id : Z) : Prop :=
  groupToCar (fst (RemoveGroup repo id)) = groupToCar repo.

(** *** Runs and what was registered *)

(** The fleet of the last [PUT /evs] of a run: the vehicles with their
    capacities. *)
Fixpoint registered_from (fleet : list Vehicle.t) (reqs : list Request)
    : list Vehicle.t :=
  match reqs with
  | [] => fleet
  | PutEvs vs :: rest => registered_from vs rest
  | _ :: rest => registered_from fleet rest
  end.

Definition registered (reqs : list Request) : list Vehicle.t :=
  registered_from [] reqs.

(** Vehicle [v] of the fleet is vehicle [c] as registered, with between zero
    and its capacity seats left. *)
Definition within_capacity (c v : Vehicle.t) : Prop :=
  Vehicle.ID v = Vehicle.ID c /\ 0 <= Vehicle.Seats v <= Vehicle.Seats c.

Definition seats_within_capacity (reqs : list Request) : Prop :=
  Forall2 within_capacity (registered reqs) (vehicles (vehicleRepo (run initial reqs))).


(** A journey request for a group the ledger does not hold yet. *)
Definition fresh_group (app : App) (req : Request) : Prop :=
  match req with
  | PostJourney g =>
      ~ waiting (groupRepo app) (Group.ID g) /\ ~ riding (groupRepo app) (Group.ID g)
  | _ => True
  end.

(** A request within the data model: a fleet has pairwise distinct ids and
    seat counts from zero to [max_int]; a journey is for a group the ledger
    does not hold, with a people count that is not negative. *)
Definition well_formed (app : App) (req : Request) : Prop :=
  match req with
  | PutEvs vs =>
      NoDup (vehicle_ids vs) /\
      Forall (fun v => 0 <= Vehicle.Seats v <= GoInt.max_int) vs
  | PostJourney g => 0 <= Group.People g /\ fresh_group app req
  | _ => True
  end.

(** Every request of the run satisfies [P] in the state it is served in. *)
Fixpoint run_respects (P : App -> Request -> Prop) (app : App)
    (reqs : list Request) : Prop :=
  match reqs with
  | [] => True
  | req :: rest => P app req /\ run_respects P (fst (handle app req)) rest
  end.

(** *** Reading the memory *)

(** The seats of the first vehicle with the id, the one [UpdateVehicleSeats]
    writes. *)
Fixpoint seats_of (fleet : list Vehicle.t) (vehicleID : Z) : option Z :=
  match fleet with
  | [] => None
  | v :: rest =>
      if Vehicle.ID v =? vehicleID then Some (Vehicle.Seats v)
      else seats_of rest vehicleID
  end.

(** The seats left in the whole fleet. *)
Definition total_seats (fleet : list Vehicle.t) : Z :=
  foldr (fun v acc => Vehicle.Seats v + acc) 0 fleet.

Definition is_PutEvs (req : Request) : bool :=
  match req with
  | PutEvs _ => true
  | _ => false
  end.

(** The groups a run puts on the waitlist, in the order it serves them. *)
Fixpoint waitlisted (app : App) (reqs : list Request) : list Group.t :=
  match reqs with
  | [] => []
  | req :: rest =>
      match req, snd (handle app req) with
      | PostJourney g, AddedToWaitlist => g :: waitlisted (fst (handle app req)) rest
      | _, _ => waitlisted (fst (handle app req)) rest
      end
  end.

(** The journeys a run starts, as pairs of group id and car id, in the order
    it serves them. *)
Fixpoint started (app : App) (reqs : list Request) : list (Z * Z) :=
  match reqs with
  | [] => []
  | req :: rest =>
      match req, snd (handle app req) with
      | PostJourney g, JourneyStarted carID =>
          (Group.ID g, carID) :: started (fst (handle app req)) rest
      | _, _ => started (fst (handle app req)) rest
      end
  end.


(** The goroutines a bus starts for a list of events. *)
Definition dispatched {L : Type} (eb : EventBus L) (evs : list Event)
    : list (L * Event) :=
  concat (map (Emit eb) evs).

(** The bus of [main]: one listener, under "VehicleAssigned". *)
Definition main_bus {L : Type} (listener : L) : EventBus L :=
  Register NewEventBus "VehicleAssigned" listener.

(** Every car id of the assignment table is the id of a vehicle of the
    fleet. *)
Definition assigned_cars_in_fleet (app : App) : Prop :=
  forall id carID,
    groupToCar (groupRepo app) !! id = Some carID ->
    carID ∈ vehicle_ids (vehicles (vehicleRepo app)).

(** What an event says: the group and the car. *)
Definition event_pair (e : Event) : Z * Z :=
  (group_id e, vehicle_id e).

(** *** Invariants of a run *)

(** No group id is both riding and waiting. *)
Definition ledger_disjoint (repo : InMemoryGroupRepository) : Prop :=
  forall id, riding repo id -> ~ waiting repo id.

(** The fleet against the capacities [caps] it was registered with. *)
Definition fleet_inv (caps : list Vehicle.t) (app : App) : Prop :=
  NoDup (vehicle_ids caps) /\
  Forall (fun c => Vehicle.Seats c <= GoInt.max_int) caps /\
  Forall2 within_capacity caps (vehicles (vehicleRepo app)) /\
  ledger_disjoint (groupRepo app).

(** ** Go's subtraction *)

Lemma GoInt_sub_exact (x y : Z) :
  GoInt.min_int <= x - y <= GoInt.max_int -> GoInt.sub x y = x - y.
Proof.
  unfold GoInt.sub, GoInt.wrap, GoInt.min_int, GoInt.max_int, GoInt.bits.
  change (2 ^ (64 - 1)) with 9223372036854775808.
  change (2 ^ 64) with 18446744073709551616.
  intros H. rewrite Z.mod_small; lia.
Qed.

Lemma GoInt_wrap_in_range (z : Z) : GoInt.in_range (GoInt.wrap z).
Proof.
  unfold GoInt.in_range, GoInt.wrap, GoInt.min_int, GoInt.max_int, GoInt.bits.
  change (2 ^ (64 - 1)) with 9223372036854775808.
  change (2 ^ 64) with 18446744073709551616.
  match goal with
  | |- context [?a mod ?b] => pose proof (Z.mod_pos_bound a b)
  end.
  lia.
Qed.

(** ** The vehicle repository *)

Lemma update_seats_first (pre : list Vehicle.t) (v : Vehicle.t)
    (post : list Vehicle.t) (seats : Z) :
  Forall (fun u => Vehicle.ID u <> Vehicle.ID v) pre ->
  update_seats (pre ++ v :: post) (Vehicle.ID v) seats
  = pre ++ Vehicle.mk (Vehicle.ID v) seats :: post.
Proof.
  induction 1 as [|u pre Hu _ IH]; simpl.
  - by rewrite Z.eqb_refl.
  - apply Z.eqb_neq in Hu. by rewrite Hu, IH.
Qed.

Lemma update_seats_ids (vs : list Vehicle.t) (id seats : Z) :
  vehicle_ids (update_seats vs id seats) = vehicle_ids vs.
Proof.
  induction vs as [|v vs IH]; simpl; [done|].
  destruct (Vehicle.ID v =? id); simpl; [done|]. by rewrite IH.
Qed.

Lemma NoDup_ids_before (pre : list Vehicle.t) (v : Vehicle.t) (post : list Vehicle.t) :
  NoDup (vehicle_ids (pre ++ v :: post)) ->
  Forall (fun u => Vehicle.ID u <> Vehicle.ID v) pre.
Proof.
  unfold vehicle_ids. rewrite map_app. simpl. intros Hnd.
  apply NoDup_app in Hnd as (_ & Hdisj & _).
  apply Forall_forall. intros u Hu Heq.
  apply (Hdisj (Vehicle.ID u)).
  - apply list_elem_of_fmap. eauto.
  - rewrite Heq. left.
Qed.

(** ** The scan of [AssignVehicleToGroup] *)

Lemma assign_scan_cases (repo : InMemoryVehicleRepository) (group : Group.t)
    (todo : list Vehicle.t) :
  (Forall (fun u => Vehicle.Seats u < Group.People group) todo /\
   assign_scan repo todo group = (repo, [], (0, false)))
  \/
  (exists pre v post,
     first_fit todo (Group.People group) pre v post /\
     assign_scan repo todo group
     = (UpdateVehicleSeats repo (Vehicle.ID v)
          (GoInt.sub (Vehicle.Seats v) (Group.People group)),
        [VehicleAssigned group (Vehicle.ID v)],
        (Vehicle.ID v, true))).
Proof.
  induction todo as [|u todo IH]; simpl.
  - left. split; [constructor | reflexivity].
  - destruct (Z.geb_spec (Vehicle.Seats u) (Group.People group)) as [Hge|Hlt].
    + right. exists [], u, todo. split; [|reflexivity].
      repeat split; [constructor | lia].
    + destruct IH as [[Hall Heq]|(pre & v & post & (Hsplit & Hpre & Hv) & Heq)].
      * left. split; [by constructor | exact Heq].
      * right. exists (u :: pre), v, post. split; [|exact Heq].
        repeat split; [by rewrite Hsplit | by constructor | exact Hv].
Qed.

Lemma assign_no_fit (repo : InMemoryVehicleRepository) (group : Group.t) :
  Forall (fun u => Vehicle.Seats u < Group.People group) (vehicles repo) ->
  AssignVehicleToGroup repo group = (repo, [], (0, false)).
Proof.
  intros Hall. unfold AssignVehicleToGroup, GetAllVehicles.
  destruct (assign_scan_cases repo group (vehicles repo))
    as [[_ Heq]|(pre & v & post & (Hsplit & _ & Hv) & _)]; [exact Heq|].
  rewrite Hsplit in Hall. apply Forall_app in Hall as [_ Hall].
  apply Forall_cons in Hall as [Hlt _]. lia.
Qed.

Lemma assign_fit (repo : InMemoryVehicleRepository) (group : Group.t)
    (pre : list Vehicle.t) (v : Vehicle.t) (post : list Vehicle.t) :
  first_fit (vehicles repo) (Group.People group) pre v post ->
  AssignVehicleToGroup repo group
  = (UpdateVehicleSeats repo (Vehicle.ID v)
       (GoInt.sub (Vehicle.Seats v) (Group.People group)),
     [VehicleAssigned group (Vehicle.ID v)],
     (Vehicle.ID v, true)).
Proof.
  intros (Hsplit & Hpre & Hv). unfold AssignVehicleToGroup, GetAllVehicles.
  rewrite Hsplit. clear Hsplit.
  induction Hpre as [|u pre Hu _ IH]; simpl.
  - destruct (Z.geb_spec (Vehicle.Seats v) (Group.People group)); [done | lia].
  - destruct (Z.geb_spec (Vehicle.Seats u) (Group.People group)); [lia | exact IH].
Qed.

Lemma journey_handler_assigned (app : App) (group : Group.t)
    (vrepo : InMemoryVehicleRepository) (emitted : list Event) (carID : Z) :
  AssignVehicleToGroup (vehicleRepo app) group = (vrepo, emitted, (carID, true)) ->
  journey_handler app group
  = ({| vehicleRepo := vrepo;
        groupRepo :=
          {| groupsQueue := groupsQueue (groupRepo app);
             groupToCar := <[Group.ID group := carID]> (groupToCar (groupRepo app)) |};
        events := events app ++ emitted |},
     JourneyStarted carID).
Proof. intros Heq. unfold journey_handler. by rewrite Heq. Qed.

Lemma first_fit_exists (fleet : list Vehicle.t) (people : Z) :
  (exists u, u ∈ fleet /\ fits people u) ->
  exists pre v post, first_fit fleet people pre v post.
Proof.
  intros (u & Hin & Hfit).
  induction fleet as [|w fleet IH]; [by apply elem_of_nil in Hin|].
  destruct (Z_le_gt_dec people (Vehicle.Seats w)) as [Hle|Hgt].
  - exists [], w, fleet. repeat split; [constructor | exact Hle].
  - apply elem_of_cons in Hin as [->|Hin]; [unfold fits in Hfit; lia|].
    destruct (IH Hin) as (pre & v & post & Hsplit & Hpre & Hv).
    exists (w :: pre), v, post. repeat split.
    + by rewrite Hsplit.
    + constructor; [lia | exact Hpre].
    + exact Hv.
Qed.

(** ** First fit *)

(** C1, as the code has it: in a fleet whose vehicle ids are pairwise
    distinct, a group that fits some vehicle is assigned the first vehicle,
    in registration order, with enough remaining seats.  The scan answers
    that vehicle's id with [true] and emits one [VehicleAssigned] event,
    [POST /journey] answers "Journey started" with that id and records it in
    the assignment table, and that vehicle alone changes: its seats become
    [Seats - People] in Go's [int] arithmetic, which is the exact difference
    whenever that difference does not exceed [max_int] (always so for a
    non-negative people count). *)
Theorem assign_first_fit (app : App) (group : Group.t) :
  NoDup (vehicle_ids (vehicles (vehicleRepo app))) ->
  (exists u, u ∈ vehicles (vehicleRepo app) /\ fits (Group.People group) u) ->
  exists pre v post,
    first_fit (vehicles (vehicleRepo app)) (Group.People group) pre v post /\
    AssignVehicleToGroup (vehicleRepo app) group
    = ({| vehicles :=
            pre ++ Vehicle.mk (Vehicle.ID v)
                     (GoInt.sub (Vehicle.Seats v) (Group.People group)) :: post |},
       [VehicleAssigned group (Vehicle.ID v)],
       (Vehicle.ID v, true)) /\
    snd (journey_handler app group) = JourneyStarted (Vehicle.ID v) /\
    groupToCar (groupRepo (fst (journey_handler app group))) !! Group.ID group
    = Some (Vehicle.ID v) /\
    (Vehicle.Seats v - Group.People group <= GoInt.max_int ->
     GoInt.sub (Vehicle.Seats v) (Group.People group)
     = Vehicle.Seats v - Group.People group).
Proof.
  intros Hnd Hex.
  destruct (first_fit_exists _ _ Hex) as (pre & v & post & Hff).
  exists pre, v, post. split; [exact Hff|].
  assert (Hassign : AssignVehicleToGroup (vehicleRepo app) group
    = ({| vehicles :=
            pre ++ Vehicle.mk (Vehicle.ID v)
                     (GoInt.sub (Vehicle.Seats v) (Group.People group)) :: post |},
       [VehicleAssigned group (Vehicle.ID v)],
       (Vehicle.ID v, true))).
  { rewrite (assign_fit _ _ _ _ _ Hff). destruct Hff as (Hsplit & _ & _).
    unfold UpdateVehicleSeats. rewrite Hsplit.
    rewrite update_seats_first; [reflexivity|].
    apply (NoDup_ids_before pre v post). by rewrite <- Hsplit. }
  split; [exact Hassign|].
  rewrite (journey_handler_assigned _ _ _ _ _ Hassign). simpl.
  split; [reflexivity|]. split; [by rewrite lookup_insert_eq|].
  destruct Hff as (_ & _ & Hv). intros Hmax. apply GoInt_sub_exact.
  split; [|exact Hmax].
  assert (GoInt.min_int <= 0) by (by vm_compute). lia.
Qed.

Lemma assign_first_fit_witness :
  let app :=
    run initial [PutEvs [Vehicle.mk 1 2; Vehicle.mk 2 6; Vehicle.mk 3 5]] in
  let group := Group.mk 7 4 in
  exists pre v post,
    first_fit (vehicles (vehicleRepo app)) (Group.People group) pre v post /\
    AssignVehicleToGroup (vehicleRepo app) group
    = ({| vehicles :=
            pre ++ Vehicle.mk (Vehicle.ID v)
                     (GoInt.sub (Vehicle.Seats v) (Group.People group)) :: post |},
       [VehicleAssigned group (Vehicle.ID v)],
       (Vehicle.ID v, true)) /\
    snd (journey_handler app group) = JourneyStarted (Vehicle.ID v) /\
    groupToCar (groupRepo (fst (journey_handler app group))) !! Group.ID group
    = Some (Vehicle.ID v) /\
    (Vehicle.Seats v - Group.People group <= GoInt.max_int ->
     GoInt.sub (Vehicle.Seats v) (Group.People group)
     = Vehicle.Seats v - Group.People group).
Proof.
  intros app group. apply (assign_first_fit app group).
  - simpl. compute_done.
  - exists (Vehicle.mk 2 6). split; [| unfold fits; simpl; lia].
    simpl. apply list_elem_of_further, list_elem_of_here.
Defined.

(** C1 fails over all fleets: with two vehicles of id 1, seats 2 and 5, a
    group of 4 fits the second one only, and the update by id lands on the
    first: the fleet ends as seats 1 and 5. *)
Lemma first_fit_any_fleet_fails :
  ~ first_fit_any_fleet [Vehicle.mk 1 2; Vehicle.mk 1 5] (Group.mk 7 4).
Proof.
  intros Hclaim. destruct Hclaim as (pre & v & post & (Hsplit & Hpre & Hv) & _ & Hfleet).
  { exists (Vehicle.mk 1 5). split; [| unfold fits; simpl; lia].
    apply list_elem_of_further, list_elem_of_here. }
  vm_compute in Hfleet. simpl in Hv, Hpre.
  destruct pre as [|a [|b pre]]; simpl in Hsplit, Hfleet.
  - injection Hsplit as <- _. simpl in Hv. lia.
  - injection Hsplit as <- <- _. discriminate Hfleet.
  - injection Hsplit as _ _ Hnil. by destruct pre.
Qed.

(** ** People counts of zero or less *)

(** C10, as the code has it: in a non-empty fleet whose vehicles all have
    non-negative remaining seats, a group whose people count is zero or
    negative is assigned the fleet's first vehicle, which is the first that
    fits; its seats become [Seats - People] in Go's [int] arithmetic, and
    for a strictly negative count they end strictly above their prior value
    whenever [Seats - People] does not exceed [max_int]. *)
Theorem nonpositive_people_takes_first (repo : InMemoryVehicleRepository)
    (group : Group.t) :
  vehicles repo <> [] ->
  Forall (fun u => 0 <= Vehicle.Seats u) (vehicles repo) ->
  Group.People group <= 0 ->
  exists v rest,
    first_fit (vehicles repo) (Group.People group) [] v rest /\
    AssignVehicleToGroup repo group
    = ({| vehicles :=
            Vehicle.mk (Vehicle.ID v)
              (GoInt.sub (Vehicle.Seats v) (Group.People group)) :: rest |},
       [VehicleAssigned group (Vehicle.ID v)],
       (Vehicle.ID v, true)) /\
    (Group.People group < 0 ->
     Vehicle.Seats v - Group.People group <= GoInt.max_int ->
     Vehicle.Seats v < GoInt.sub (Vehicle.Seats v) (Group.People group)).
Proof.
  intros Hne Hpos Hpeople.
  destruct (vehicles repo) as [|v rest] eqn:Hfleet; [done|].
  apply Forall_cons in Hpos as [Hv _].
  assert (Hff : first_fit (vehicles repo) (Group.People group) [] v rest).
  { rewrite Hfleet. repeat split; [constructor | lia]. }
  exists v, rest. split; [by rewrite <- Hfleet|]. split.
  - rewrite (assign_fit _ _ _ _ _ Hff). unfold UpdateVehicleSeats.
    rewrite Hfleet. simpl. by rewrite Z.eqb_refl.
  - intros Hneg Hmax. rewrite GoInt_sub_exact; [lia|].
    assert (GoInt.min_int <= 0) by (by vm_compute). lia.
Qed.

Lemma nonpositive_people_takes_first_witness :
  let repo := {| vehicles := [Vehicle.mk 1 4; Vehicle.mk 2 6] |} in
  let group := Group.mk 9 (-3) in
  exists v rest,
    first_fit (vehicles repo) (Group.People group) [] v rest /\
    AssignVehicleToGroup repo group
    = ({| vehicles :=
            Vehicle.mk (Vehicle.ID v)
              (GoInt.sub (Vehicle.Seats v) (Group.People group)) :: rest |},
       [VehicleAssigned group (Vehicle.ID v)],
       (Vehicle.ID v, true)) /\
    (Group.People group < 0 ->
     Vehicle.Seats v - Group.People group <= GoInt.max_int ->
     Vehicle.Seats v < GoInt.sub (Vehicle.Seats v) (Group.People group)).
Proof.
  intros repo group. apply (nonpositive_people_takes_first repo group).
  - discriminate.
  - simpl. repeat constructor; simpl; lia.
  - simpl. lia.
Defined.

(** C10 fails over all non-empty fleets, in two ways.  A fleet registered
    with a negative seat count has no vehicle for a group of zero people:
    the answer is [(0, false)].  And a vehicle with [max_int] seats taking a
    group of [-1] people wraps around to [min_int] seats, below where it
    was. *)
Lemma nonpositive_people_any_fleet_fails :
  ~ nonpositive_people_any_fleet [Vehicle.mk 1 (-5)] (Group.mk 1 0) /\
  ~ nonpositive_people_any_fleet [Vehicle.mk 1 GoInt.max_int] (Group.mk 1 (-1)).
Proof.
  split; intros Hclaim.
  - destruct Hclaim as (pre & v & post & _ & Hans & _); [done | simpl; lia |].
    vm_compute in Hans. discriminate Hans.
  - destruct Hclaim as (pre & v & post & (Hsplit & _ & _) & _ & Hmore);
      [done | simpl; lia |].
    destruct Hmore as (seats & Hfleet & Hlt); [simpl; lia|].
    vm_compute in Hfleet. vm_compute in Hsplit.
    destruct pre as [|a pre]; simpl in Hsplit, Hfleet.
    + injection Hsplit as <- _. injection Hfleet as <-. simpl in Hlt. lia.
    + injection Hsplit as _ Hnil. by destruct pre.
Qed.

(** ** The waiting queue *)

Lemma find_group_absent (q : list Group.t) (id : Z) :
  Forall (fun g => Group.ID g <> id) q -> find_group q id = (Group.zero, false).
Proof.
  induction 1 as [|g q Hg _ IH]; simpl; [done|].
  apply Z.eqb_neq in Hg. by rewrite Hg.
Qed.

Lemma find_group_cases (q : list Group.t) (id : Z) :
  (Forall (fun g => Group.ID g <> id) q /\ find_group q id = (Group.zero, false))
  \/
  (exists pre g post,
     q = pre ++ g :: post /\
     Forall (fun h => Group.ID h <> id) pre /\
     Group.ID g = id /\
     find_group q id = (g, true)).
Proof.
  induction q as [|h q IH]; simpl.
  - left. by split.
  - destruct (Z.eqb_spec (Group.ID h) id) as [Heq|Hne].
    + right. by exists [], h, q.
    + destruct IH as [[Hall Hfind]|(pre & g & post & -> & Hpre & Hg & Hfind)].
      * left. split; [by constructor | exact Hfind].
      * right. exists (h :: pre), g, post. repeat split; try done. by constructor.
Qed.

Lemma not_waiting_Forall (repo : InMemoryGroupRepository) (id : Z) :
  ~ waiting repo id <-> Forall (fun g => Group.ID g <> id) (groupsQueue repo).
Proof.
  unfold waiting. rewrite Forall_forall. split.
  - intros Hno g Hin Heq. apply Hno. eauto.
  - intros Hall (g & Hin & Heq). exact (Hall g Hin Heq).
Qed.

Lemma FindGroup_waiting (repo : InMemoryGroupRepository) (id : Z) :
  snd (FindGroup repo id) = true <-> waiting repo id.
Proof.
  unfold FindGroup.
  destruct (find_group_cases (groupsQueue repo) id)
    as [[Hall ->]|(pre & g & post & Hq & _ & Hg & ->)]; simpl.
  - split; [done|]. intros Hw. by apply not_waiting_Forall in Hall.
  - split; [|done]. intros _. exists g. split; [|exact Hg].
    rewrite Hq. apply elem_of_app. right. left.
Qed.

Lemma AddGroup_waiting (repo : InMemoryGroupRepository) (group : Group.t) (id : Z) :
  waiting (AddGroup repo group) id <-> waiting repo id \/ Group.ID group = id.
Proof.
  unfold waiting. simpl. split.
  - intros (g & Hin & Hg). apply elem_of_app in Hin as [Hin|Hin]; [left; eauto|].
    apply list_elem_of_singleton in Hin as ->. by right.
  - intros [(g & Hin & Hg)|Hg].
    + exists g. split; [|exact Hg]. apply elem_of_app. by left.
    + exists group. split; [|exact Hg]. apply elem_of_app. right. left.
Qed.

(** ** Journey requests no vehicle can take *)

(** C5, as the code has it: when no vehicle has enough remaining seats the
    scan answers [(0, false)] and [POST /journey] answers "Added to
    waitlist"; the fleet, the events and the assignment table stay as they
    were and the group goes to the tail of the queue.  Afterwards a group
    with its id is found in the queue, the group itself when none with that
    id was waiting before, and the id is in the assignment table exactly
    when it was there before the request. *)
Theorem journey_no_fit_queues (app : App) (group : Group.t) :
  Forall (fun u => Vehicle.Seats u < Group.People group) (vehicles (vehicleRepo app)) ->
  answer (AssignVehicleToGroup (vehicleRepo app) group) = (0, false) /\
  journey_handler app group
  = ({| vehicleRepo := vehicleRepo app;
        groupRepo := AddGroup (groupRepo app) group;
        events := events app |},
     AddedToWaitlist) /\
  snd (FindGroup (AddGroup (groupRepo app) group) (Group.ID group)) = true /\
  (~ waiting (groupRepo app) (Group.ID group) ->
   FindGroup (AddGroup (groupRepo app) group) (Group.ID group) = (group, true)) /\
  (riding (AddGroup (groupRepo app) group) (Group.ID group)
   <-> riding (groupRepo app) (Group.ID group)).
Proof.
  intros Hall. pose proof (assign_no_fit _ _ Hall) as Hassign.
  split; [by rewrite Hassign|]. split; [|split; [|split]].
  - unfold journey_handler. rewrite Hassign. by rewrite app_nil_r.
  - apply FindGroup_waiting, AddGroup_waiting. by right.
  - intros Hno. apply not_waiting_Forall in Hno. unfold FindGroup. simpl.
    induction Hno as [|h q Hh _ IH]; simpl.
    + by rewrite Z.eqb_refl.
    + apply Z.eqb_neq in Hh. by rewrite Hh.
  - reflexivity.
Qed.

Lemma journey_no_fit_queues_witness :
  let app := run initial [PutEvs [Vehicle.mk 1 4]; PostJourney (Group.mk 1 3)] in
  let group := Group.mk 2 2 in
  journey_handler app group
  = ({| vehicleRepo := vehicleRepo app;
        groupRepo := AddGroup (groupRepo app) group;
        events := events app |},
     AddedToWaitlist) /\
  FindGroup (AddGroup (groupRepo app) group) (Group.ID group) = (group, true).
Proof.
  intros app group.
  destruct (journey_no_fit_queues app group) as (_ & Hjourney & _ & Hfind & _).
  - repeat constructor.
  - split; [exact Hjourney|]. apply Hfind.
    intros (g & Hin & _). by apply elem_of_nil in Hin.
Defined.

(** C5 fails over all ledgers: once group 1 rides the only vehicle, a
    second request under id 1 that no vehicle can take is put on the
    waitlist while id 1 keeps its entry in the assignment table. *)
Lemma no_fit_any_ledger_fails :
  ~ no_fit_any_ledger
      (run initial [PutEvs [Vehicle.mk 1 4]; PostJourney (Group.mk 1 2)])
      (Group.mk 1 10).
Proof.
  intros Hclaim. destruct Hclaim as (_ & _ & Hnot).
  - repeat constructor.
  - apply Hnot. by exists 1.
Qed.

(** ** Fleet registration *)

(** C6: whatever the fleet, the queue and the assignment table were,
    [PUT /evs] answers "EVs registered successfully" and leaves an empty
    queue, an empty assignment table and exactly the given vehicles as the
    fleet, each with the seat count it came with. *)
Theorem evs_resets (app : App) (newVehicles : list Vehicle.t) :
  snd (evs_handler app newVehicles) = EVsRegistered /\
  groupsQueue (groupRepo (fst (evs_handler app newVehicles))) = [] /\
  groupToCar (groupRepo (fst (evs_handler app newVehicles))) = ∅ /\
  GetAllVehicles (vehicleRepo (fst (evs_handler app newVehicles))) = newVehicles /\
  (forall id,
     ~ waiting (groupRepo (fst (evs_handler app newVehicles))) id /\
     ~ riding (groupRepo (fst (evs_handler app newVehicles))) id).
Proof.
  repeat split; simpl.
  - intros (g & Hin & _). by apply elem_of_nil in Hin.
  - unfold riding. simpl. rewrite lookup_empty. by intros [? ?].
Qed.

(** ** Drop-off *)

Lemma dropoff_riding (app : App) (id carID : Z) :
  groupToCar (groupRepo app) !! id = Some carID ->
  dropoff_handler app id
  = ({| vehicleRepo :=
          UpdateVehicleSeats (vehicleRepo app) carID
            (Group.People (fst (FindGroup (groupRepo app) id)));
        groupRepo :=
          {| groupsQueue := groupsQueue (groupRepo app);
             groupToCar := delete id (groupToCar (groupRepo app)) |};
        events := events app |},
     GroupDroppedOff).
Proof.
  intros Hcar. unfold dropoff_handler, ReleaseVehicleSeats. rewrite Hcar.
  by destruct (FindGroup (groupRepo app) id).
Qed.

(** What drop-off does to the seats of a riding group that is not also in
    the queue: [FindGroup] misses, hands back the zero group, and the
    vehicle is left with zero seats. *)
Lemma dropoff_riding_not_waiting (app : App) (id carID : Z) :
  groupToCar (groupRepo app) !! id = Some carID ->
  ~ waiting (groupRepo app) id ->
  vehicles (vehicleRepo (fst (dropoff_handler app id)))
  = update_seats (vehicles (vehicleRepo app)) carID 0.
Proof.
  intros Hcar Hno. rewrite (dropoff_riding _ _ _ Hcar). simpl.
  apply not_waiting_Forall in Hno. unfold FindGroup.
  by rewrite (find_group_absent _ _ Hno).
Qed.

Lemma dropoff_miss (app : App) (id : Z) :
  groupToCar (groupRepo app) !! id = None ->
  dropoff_handler app id = (app, GroupNotFound).
Proof.
  intros Hnone. unfold dropoff_handler. by rewrite Hnone.
Qed.

(** C7: for a group id with no entry in the assignment table, [POST
    /dropoff] answers "Group not found" and the whole memory, fleet, queue,
    assignment table and events, is as it was. *)
Theorem dropoff_unassigned (app : App) (id : Z) :
  ~ riding (groupRepo app) id ->
  snd (dropoff_handler app id) = GroupNotFound /\
  fst (dropoff_handler app id) = app.
Proof.
  intros Hnot. rewrite dropoff_miss; [done|].
  destruct (groupToCar (groupRepo app) !! id) eqn:Hcar; [|done].
  exfalso. apply Hnot. unfold riding. by rewrite Hcar.
Qed.

Lemma dropoff_unassigned_witness :
  let app :=
    run initial [PutEvs [Vehicle.mk 1 4]; PostJourney (Group.mk 1 3);
                 PostJourney (Group.mk 2 2)] in
  snd (dropoff_handler app 2) = GroupNotFound /\
  fst (dropoff_handler app 2) = app.
Proof.
  intros app. apply (dropoff_unassigned app 2).
  intros [car Hcar]. by vm_compute in Hcar.
Defined.

(** C8, as the code has it: drop-off never touches the waiting queue.  For
    a group in the queue, [POST /dropoff] with its id leaves the queue as it
    was, the group still in it; when the id has no entry in the assignment
    table the answer is "Group not found" and nothing changes at all. *)
Theorem dropoff_keeps_waiting_group (app : App) (id : Z) :
  waiting (groupRepo app) id ->
  groupsQueue (groupRepo (fst (dropoff_handler app id))) = groupsQueue (groupRepo app) /\
  waiting (groupRepo (fst (dropoff_handler app id))) id /\
  (~ riding (groupRepo app) id -> dropoff_handler app id = (app, GroupNotFound)).
Proof.
  intros Hw.
  assert (Hq : groupsQueue (groupRepo (fst (dropoff_handler app id)))
               = groupsQueue (groupRepo app)).
  { destruct (groupToCar (groupRepo app) !! id) as [carID|] eqn:Hcar.
    - by rewrite (dropoff_riding _ _ _ Hcar).
    - by rewrite (dropoff_miss _ _ Hcar). }
  split; [exact Hq|]. split.
  - unfold waiting in *. by rewrite Hq.
  - intros Hnot. apply dropoff_miss.
    destruct (groupToCar (groupRepo app) !! id) eqn:Hcar; [|done].
    exfalso. apply Hnot. unfold riding. by rewrite Hcar.
Qed.

Lemma dropoff_keeps_waiting_group_witness :
  let app := run initial [PutEvs [Vehicle.mk 1 4]; PostJourney (Group.mk 1 5)] in
  groupsQueue (groupRepo app) = [Group.mk 1 5] /\
  groupsQueue (groupRepo (fst (dropoff_handler app 1))) = groupsQueue (groupRepo app) /\
  waiting (groupRepo (fst (dropoff_handler app 1))) 1 /\
  (~ riding (groupRepo app) 1 -> dropoff_handler app 1 = (app, GroupNotFound)).
Proof.
  intros app. split; [reflexivity|].
  apply (dropoff_keeps_waiting_group app 1).
  exists (Group.mk 1 5). split; [left | reflexivity].
Defined.

(** C8 fails: group 1, five people, waits for a four-seat fleet; after
    drop-off for id 1 it is still in the queue. *)
Lemma dropoff_removes_waiting_fails :
  ~ dropoff_removes_waiting
      (run initial [PutEvs [Vehicle.mk 1 4]; PostJourney (Group.mk 1 5)]) 1.
Proof.
  intros Hclaim.
  assert (Hw : waiting {| groupsQueue := [Group.mk 1 5]; groupToCar := ∅ |} 1).
  { exists (Group.mk 1 5). split; [left | reflexivity]. }
  exact (Hclaim Hw Hw).
Qed.

(** C2 on the code: a four-seat vehicle takes group 1 of three people and is
    left with one seat; drop-off of group 1 answers "Group dropped off",
    removes the assignment, so that locate answers 204, and leaves the
    vehicle with zero seats, not the four it had before the assignment. *)
Theorem dropoff_after_journey_zero_seats :
  let before := run initial [PutEvs [Vehicle.mk 1 4]] in
  let assigned := run before [PostJourney (Group.mk 1 3)] in
  let dropped := fst (handle assigned (PostDropoff 1)) in
  vehicles (vehicleRepo before) = [Vehicle.mk 1 4] /\
  vehicles (vehicleRepo assigned) = [Vehicle.mk 1 1] /\
  groupToCar (groupRepo assigned) !! 1 = Some 1 /\
  snd (handle assigned (PostDropoff 1)) = GroupDroppedOff /\
  vehicles (vehicleRepo dropped) = [Vehicle.mk 1 0] /\
  snd (handle dropped (PostLocate 1)) = NoContent.
Proof. by vm_compute. Qed.

(** The scenario of the specification, answer by answer: the drop-off
    succeeds and neither group is located afterwards. *)
Lemma scenario_responses :
  responses initial
    [PutEvs [Vehicle.mk 1 4]; PostJourney (Group.mk 1 3); PostJourney (Group.mk 2 2);
     PostDropoff 1; PostLocate 1; PostLocate 2]
  = [EVsRegistered; JourneyStarted 1; AddedToWaitlist; GroupDroppedOff;
     NoContent; NoContent].
Proof. by vm_compute. Qed.

(** The half of C2 the code keeps: after a drop-off that found an
    assignment, the id has none, and locate answers 204. *)
Lemma dropoff_removes_assignment (app : App) (id carID : Z) :
  groupToCar (groupRepo app) !! id = Some carID ->
  snd (dropoff_handler app id) = GroupDroppedOff /\
  groupToCar (groupRepo (fst (dropoff_handler app id))) !! id = None /\
  snd (locate_handler (fst (dropoff_handler app id)) id) = NoContent.
Proof.
  intros Hcar. rewrite (dropoff_riding _ _ _ Hcar). simpl.
  split; [done|]. unfold locate_handler. simpl.
  by rewrite lookup_delete_eq.
Qed.

(** ** [RemoveGroup] *)

Lemma index_of_cases (q : list Group.t) (id : Z) :
  (Forall (fun g => Group.ID g <> id) q /\ index_of q id = None)
  \/
  (exists pre g post,
     q = pre ++ g :: post /\
     Forall (fun h => Group.ID h <> id) pre /\
     Group.ID g = id /\
     index_of q id = Some (length pre)).
Proof.
  induction q as [|h q IH]; simpl.
  - left. by split.
  - destruct (Z.eqb_spec (Group.ID h) id) as [Heq|Hne].
    + right. by exists [], h, q.
    + destruct IH as [[Hall ->]|(pre & g & post & -> & Hpre & Hg & ->)].
      * left. split; [by constructor | done].
      * right. exists (h :: pre), g, post. repeat split; try done. by constructor.
Qed.

(** C9, as the code has it: when a group with the id waits, [RemoveGroup]
    takes the first such group out of the queue, answers [true] and leaves
    the assignment table as it was; when none waits it answers [false],
    leaves the queue as it was and deletes the id from the assignment
    table. *)
Theorem RemoveGroup_cases (repo : InMemoryGroupRepository) (groupID : Z) :
  (exists pre g post,
     groupsQueue repo = pre ++ g :: post /\
     Forall (fun h => Group.ID h <> groupID) pre /\
     Group.ID g = groupID /\
     RemoveGroup repo groupID
     = ({| groupsQueue := pre ++ post; groupToCar := groupToCar repo |}, true))
  \/
  (Forall (fun g => Group.ID g <> groupID) (groupsQueue repo) /\
   RemoveGroup repo groupID
   = ({| groupsQueue := groupsQueue repo;
         groupToCar := delete groupID (groupToCar repo) |}, false)).
Proof.
  unfold RemoveGroup.
  destruct (index_of_cases (groupsQueue repo) groupID)
    as [[Hall ->]|(pre & g & post & Hq & Hpre & Hg & ->)].
  - right. by split.
  - left. exists pre, g, post. repeat split; try done.
    rewrite Hq, take_app_length.
    change (pre ++ g :: post) with (pre ++ [g] ++ post).
    rewrite app_assoc.
    replace (S (length pre)) with (length (pre ++ [g]))
      by (rewrite length_app; simpl; lia).
    by rewrite drop_app_length.
Qed.

(** C9 fails where no group with the id waits: with an empty queue and
    group 1 riding vehicle 1, [RemoveGroup] for id 1 answers [false] and
    the assignment of group 1 is gone. *)
Lemma remove_keeps_table_fails :
  ~ remove_keeps_table {| groupsQueue := []; groupToCar := {[ 1 := 1 ]} |} 1.
Proof.
  unfold remove_keeps_table. simpl. intros Heq.
  apply (f_equal (fun m => m !! 1)) in Heq.
  rewrite lookup_delete_eq, lookup_singleton_eq in Heq. discriminate Heq.
Qed.

(** ** The ledger along a run *)

Lemma journey_handler_ledger (app : App) (group : Group.t) :
  groupRepo (fst (journey_handler app group)) = AddGroup (groupRepo app) group
  \/
  exists carID,
    groupRepo (fst (journey_handler app group))
    = {| groupsQueue := groupsQueue (groupRepo app);
         groupToCar := <[Group.ID group := carID]> (groupToCar (groupRepo app)) |}.
Proof.
  unfold journey_handler, AssignVehicleToGroup.
  destruct (assign_scan_cases (vehicleRepo app) group (GetAllVehicles (vehicleRepo app)))
    as [[_ ->]|(pre & v & post & _ & ->)]; simpl.
  - by left.
  - right. by exists (Vehicle.ID v).
Qed.

Lemma handle_ledger_disjoint (app : App) (req : Request) :
  fresh_group app req ->
  ledger_disjoint (groupRepo app) ->
  ledger_disjoint (groupRepo (fst (handle app req))).
Proof.
  intros Hfresh Hdisj. destruct req as [vs|g|id|id]; simpl.
  - intros id' [car Hcar]. simpl in Hcar. by rewrite lookup_empty in Hcar.
  - destruct Hfresh as [Hnw Hnr].
    destruct (journey_handler_ledger app g) as [->|[carID ->]]; intros id' Hr Hw.
    + apply AddGroup_waiting in Hw as [Hw| <-]; [exact (Hdisj id' Hr Hw)|].
      exact (Hnr Hr).
    + unfold riding, waiting in *. simpl in *.
      destruct (decide (Group.ID g = id')) as [<-|Hne]; [exact (Hnw Hw)|].
      rewrite lookup_insert_ne in Hr by done. exact (Hdisj id' Hr Hw).
  - destruct (groupToCar (groupRepo app) !! id) as [carID|] eqn:Hcar.
    + rewrite (dropoff_riding _ _ _ Hcar). intros id' Hr Hw.
      unfold riding, waiting in *. simpl in *.
      destruct (decide (id = id')) as [<-|Hne].
      * rewrite lookup_delete_eq in Hr. by destruct Hr.
      * rewrite lookup_delete_ne in Hr by done. exact (Hdisj id' Hr Hw).
    + by rewrite (dropoff_miss _ _ Hcar).
  - unfold locate_handler. by destruct (groupToCar (groupRepo app) !! id).
Qed.


Lemma initial_ledger_disjoint : ledger_disjoint (groupRepo initial).
Proof. intros id [car Hcar]. simpl in Hcar. by rewrite lookup_empty in Hcar. Qed.




(** ** The fleet along a run *)

Lemma within_capacity_ids (caps fleet : list Vehicle.t) :
  Forall2 within_capacity caps fleet -> vehicle_ids fleet = vehicle_ids caps.
Proof.
  induction 1 as [|c v caps fleet [Hid _] _ IH]; simpl; [done|].
  by rewrite Hid, IH.
Qed.

Lemma update_seats_zero_within (caps fleet : list Vehicle.t) (id : Z) :
  Forall2 within_capacity caps fleet ->
  Forall2 within_capacity caps (update_seats fleet id 0).
Proof.
  induction 1 as [|c v caps fleet [Hid Hseats] Hrest IH]; simpl; [constructor|].
  destruct (Vehicle.ID v =? id).
  - constructor; [|exact Hrest]. split; simpl; [exact Hid | lia].
  - constructor; [by split | exact IH].
Qed.

Lemma update_first_fit_within (caps pre post : list Vehicle.t) (v : Vehicle.t)
    (people : Z) :
  Forall (fun c => Vehicle.Seats c <= GoInt.max_int) caps ->
  Forall2 within_capacity caps (pre ++ v :: post) ->
  0 <= people <= Vehicle.Seats v ->
  Forall2 within_capacity caps
    (pre ++ Vehicle.mk (Vehicle.ID v) (GoInt.sub (Vehicle.Seats v) people) :: post).
Proof.
  intros Hmax Hcaps Hpeople.
  apply Forall2_app_inv_r in Hcaps as (caps1 & caps2 & Hpre & Hrest & ->).
  apply Forall2_cons_inv_r in Hrest as (c & caps3 & [Hid Hseats] & Hpost & ->).
  apply Forall_app in Hmax as [_ Hmax]. apply Forall_cons in Hmax as [Hc _].
  apply Forall2_app; [exact Hpre|]. constructor; [|exact Hpost].
  assert (GoInt.min_int <= 0) by (by vm_compute).
  rewrite GoInt_sub_exact by lia. split; simpl; [exact Hid | lia].
Qed.

Lemma journey_handler_fleet (app : App) (group : Group.t) :
  vehicles (vehicleRepo (fst (journey_handler app group))) = vehicles (vehicleRepo app)
  \/
  exists pre v post,
    first_fit (vehicles (vehicleRepo app)) (Group.People group) pre v post /\
    vehicles (vehicleRepo (fst (journey_handler app group)))
    = update_seats (vehicles (vehicleRepo app)) (Vehicle.ID v)
        (GoInt.sub (Vehicle.Seats v) (Group.People group)).
Proof.
  unfold journey_handler, AssignVehicleToGroup, GetAllVehicles.
  destruct (assign_scan_cases (vehicleRepo app) group (vehicles (vehicleRepo app)))
    as [[_ ->]|(pre & v & post & Hff & ->)]; simpl.
  - by left.
  - right. by exists pre, v, post.
Qed.

Lemma well_formed_fresh (app : App) (req : Request) :
  well_formed app req -> fresh_group app req.
Proof. destruct req; simpl; tauto. Qed.

Lemma handle_fleet_inv (caps : list Vehicle.t) (app : App) (req : Request) :
  well_formed app req ->
  fleet_inv caps app ->
  fleet_inv (registered_from caps [req]) (fst (handle app req)).
Proof.
  intros Hwf (Hnd & Hmax & Hcaps & Hdisj).
  assert (Hdisj' : ledger_disjoint (groupRepo (fst (handle app req)))).
  { apply handle_ledger_disjoint; [by apply well_formed_fresh | exact Hdisj]. }
  destruct req as [vs|g|id|id]; simpl in *.
  - destruct Hwf as [Hnd' Hseats]. repeat split; try done.
    + eapply Forall_impl; [exact Hseats|]. simpl. lia.
    + clear Hnd'. induction Hseats as [|v vs Hv _ IH]; constructor; [|exact IH].
      split; [done | lia].
  - destruct Hwf as [Hpeople _]. repeat split; try done.
    destruct (journey_handler_fleet app g)
      as [->|(pre & v & post & (Hsplit & _ & Hv) & ->)]; [exact Hcaps|].
    rewrite Hsplit in Hcaps |- *. rewrite update_seats_first.
    + apply update_first_fit_within; [exact Hmax | exact Hcaps | lia].
    + apply (NoDup_ids_before pre v post).
      by rewrite (within_capacity_ids _ _ Hcaps).
  - repeat split; try done.
    destruct (groupToCar (groupRepo app) !! id) as [carID|] eqn:Hcar.
    + rewrite (dropoff_riding_not_waiting _ _ _ Hcar).
      * by apply update_seats_zero_within.
      * apply Hdisj. unfold riding. by rewrite Hcar.
    + by rewrite (dropoff_miss _ _ Hcar).
  - repeat split; try done.
    unfold locate_handler. by destruct (groupToCar (groupRepo app) !! id).
Qed.

Lemma run_fleet_inv (reqs : list Request) (caps : list Vehicle.t) (app : App) :
  run_respects well_formed app reqs ->
  fleet_inv caps app ->
  fleet_inv (registered_from caps reqs) (run app reqs).
Proof.
  revert caps app.
  induction reqs as [|req reqs IH]; intros caps app Hrun Hinv; [done|].
  destruct Hrun as [Hreq Hrest].
  pose proof (handle_fleet_inv caps app req Hreq Hinv) as Hstep.
  specialize (IH _ _ Hrest Hstep). by destruct req.
Qed.

Lemma initial_fleet_inv : fleet_inv [] initial.
Proof.
  repeat split; try constructor. apply initial_ledger_disjoint.
Qed.

(** C3, as the code has it: along a run from the initial memory in which
    every fleet is registered with pairwise distinct vehicle ids and seat
    counts from zero to [max_int], and every journey request is for a group
    that is neither waiting nor riding when it is served and has a people
    count that is not negative, the fleet is the registered one, vehicle by
    vehicle, and every vehicle has at least zero and at most its registered
    count of seats left. *)
Theorem seats_stay_within_capacity (reqs : list Request) :
  run_respects well_formed initial reqs ->
  seats_within_capacity reqs.
Proof.
  intros Hrun.
  by destruct (run_fleet_inv reqs [] initial Hrun initial_fleet_inv) as (_ & _ & Hcaps & _).
Qed.

Lemma seats_stay_within_capacity_witness :
  let reqs := [PutEvs [Vehicle.mk 1 4; Vehicle.mk 2 6]; PostJourney (Group.mk 1 3);
               PostJourney (Group.mk 2 2); PostDropoff 1; PostLocate 2] in
  vehicles (vehicleRepo (run initial reqs)) = [Vehicle.mk 1 0; Vehicle.mk 2 4] /\
  seats_within_capacity reqs.
Proof.
  intros reqs. split; [by vm_compute|].
  apply (seats_stay_within_capacity reqs).
  simpl. repeat split.
  - compute_done.
  - repeat constructor; simpl; try lia; by vm_compute.
  - lia.
  - intros (g & Hin & _). by apply elem_of_nil in Hin.
  - intros [car Hcar]. by vm_compute in Hcar.
  - lia.
  - intros (g & Hin & _). by apply elem_of_nil in Hin.
  - intros [car Hcar]. by vm_compute in Hcar.
Defined.

(** C3 fails over all runs: a four-seat vehicle that takes a group of minus
    three people is left with seven seats, above its capacity. *)
Lemma seats_within_capacity_fails :
  ~ seats_within_capacity [PutEvs [Vehicle.mk 1 4]; PostJourney (Group.mk 1 (-3))].
Proof.
  unfold seats_within_capacity. intros Hclaim.
  assert (Hfleet : vehicles (vehicleRepo
            (run initial [PutEvs [Vehicle.mk 1 4]; PostJourney (Group.mk 1 (-3))]))
          = [Vehicle.mk 1 7]) by (by vm_compute).
  rewrite Hfleet in Hclaim. simpl in Hclaim.
  apply Forall2_cons_1 in Hclaim as [(_ & _ & Hle) _]. simpl in Hle. lia.
Qed.

(** * Further properties of the code *)

(** ** [UpdateVehicleSeats] as a store keyed by vehicle id *)

(** X1: an id no vehicle of the fleet carries is silently ignored: the
    repository is left exactly as it was. *)
Theorem UpdateVehicleSeats_unknown_id (repo : InMemoryVehicleRepository)
    (vehicleID seats : Z) :
  vehicleID ∉ vehicle_ids (vehicles repo) ->
  UpdateVehicleSeats repo vehicleID seats = repo.
Proof.
  destruct repo as [fleet]. unfold UpdateVehicleSeats. simpl. intros Hnot.
  f_equal. induction fleet as [|v fleet IH]; simpl; [done|].
  simpl in Hnot. apply not_elem_of_cons in Hnot as [Hne Hnot].
  destruct (Z.eqb_spec (Vehicle.ID v) vehicleID) as [Heq|_]; [congruence|].
  by rewrite IH.
Qed.

Lemma UpdateVehicleSeats_unknown_id_witness :
  let repo := {| vehicles := [Vehicle.mk 1 4; Vehicle.mk 2 6] |} in
  UpdateVehicleSeats repo 3 9 = repo.
Proof.
  intros repo. apply (UpdateVehicleSeats_unknown_id repo 3 9).
  simpl. intros Hin. apply elem_of_cons in Hin as [Hin|Hin]; [discriminate|].
  apply elem_of_cons in Hin as [Hin|Hin]; [discriminate|].
  by apply elem_of_nil in Hin.
Defined.

(** X2: whatever the id and the seat count, an update keeps the number of
    vehicles, their ids and their order. *)
Theorem UpdateVehicleSeats_keeps_ids (repo : InMemoryVehicleRepository)
    (vehicleID seats : Z) :
  vehicle_ids (vehicles (UpdateVehicleSeats repo vehicleID seats))
  = vehicle_ids (vehicles repo) /\
  length (vehicles (UpdateVehicleSeats repo vehicleID seats))
  = length (vehicles repo).
Proof.
  assert (Hids := update_seats_ids (vehicles repo) vehicleID seats).
  split; [exact Hids|]. simpl.
  apply (f_equal length) in Hids. unfold vehicle_ids in Hids.
  by rewrite !length_map in Hids.
Qed.

(** X3: reading after writing.  After an update for [vehicleID], the first
    vehicle with that id, if there is one, has the seats written, and the
    seats read under any other id are what they were, duplicate ids or
    not. *)
Theorem UpdateVehicleSeats_then_read (repo : InMemoryVehicleRepository)
    (vehicleID seats other : Z) :
  seats_of (vehicles (UpdateVehicleSeats repo vehicleID seats)) other
  = if other =? vehicleID
    then option_map (fun _ => seats) (seats_of (vehicles repo) vehicleID)
    else seats_of (vehicles repo) other.
Proof.
  simpl. induction (vehicles repo) as [|v fleet IH]; simpl.
  - by destruct (other =? vehicleID).
  - destruct (Z.eqb_spec (Vehicle.ID v) vehicleID) as [Heq|Hne]; simpl.
    + destruct (Z.eqb_spec other vehicleID) as [->|Hne'].
      * by rewrite Heq, Z.eqb_refl.
      * destruct (Z.eqb_spec (Vehicle.ID v) other); [congruence | done].
    + destruct (Z.eqb_spec (Vehicle.ID v) other) as [Heq'|Hne'].
      * destruct (Z.eqb_spec other vehicleID); [congruence | done].
      * exact IH.
Qed.

(** X4: the last write wins: two updates of the same id in a row leave what
    the second alone would. *)
Theorem UpdateVehicleSeats_twice (repo : InMemoryVehicleRepository)
    (vehicleID first second : Z) :
  UpdateVehicleSeats (UpdateVehicleSeats repo vehicleID first) vehicleID second
  = UpdateVehicleSeats repo vehicleID second.
Proof.
  unfold UpdateVehicleSeats. simpl. f_equal.
  induction (vehicles repo) as [|v fleet IH]; simpl; [done|].
  destruct (Z.eqb_spec (Vehicle.ID v) vehicleID) as [Heq|Hne]; simpl.
  - by rewrite Heq, Z.eqb_refl.
  - destruct (Z.eqb_spec (Vehicle.ID v) vehicleID); [done|]. by rewrite IH.
Qed.



(** X6: updates of different ids do not interfere: either order leaves the
    same repository. *)
Theorem UpdateVehicleSeats_commute (repo : InMemoryVehicleRepository)
    (id1 seats1 id2 seats2 : Z) :
  id1 <> id2 ->
  UpdateVehicleSeats (UpdateVehicleSeats repo id1 seats1) id2 seats2
  = UpdateVehicleSeats (UpdateVehicleSeats repo id2 seats2) id1 seats1.
Proof.
  intros Hne. unfold UpdateVehicleSeats. simpl. f_equal.
  induction (vehicles repo) as [|v fleet IH]; simpl; [done|].
  destruct (Z.eqb_spec (Vehicle.ID v) id1) as [Heq1|Hne1];
    destruct (Z.eqb_spec (Vehicle.ID v) id2) as [Heq2|Hne2]; simpl.
  - congruence.
  - destruct (Z.eqb_spec (Vehicle.ID v) id2); [done|].
    by destruct (Z.eqb_spec (Vehicle.ID v) id1).
  - destruct (Z.eqb_spec (Vehicle.ID v) id1); [done|].
    by destruct (Z.eqb_spec (Vehicle.ID v) id2).
  - destruct (Z.eqb_spec (Vehicle.ID v) id1); [done|].
    destruct (Z.eqb_spec (Vehicle.ID v) id2); [done|]. by rewrite IH.
Qed.

Lemma UpdateVehicleSeats_commute_witness :
  let repo := {| vehicles := [Vehicle.mk 1 4; Vehicle.mk 2 6] |} in
  UpdateVehicleSeats (UpdateVehicleSeats repo 1 0) 2 3
  = UpdateVehicleSeats (UpdateVehicleSeats repo 2 3) 1 0.
Proof.
  intros repo. apply (UpdateVehicleSeats_commute repo 1 0 2 3). discriminate.
Defined.

(** ** The waiting queue of [InMemoryGroupRepository] *)

Lemma index_of_tail (q : list Group.t) (g : Group.t) (post : list Group.t) (id : Z) :
  Forall (fun h => Group.ID h <> id) q ->
  Group.ID g = id ->
  index_of (q ++ g :: post) id = Some (length q).
Proof.
  intros Hq Hg. induction Hq as [|h q Hh _ IH]; simpl.
  - apply Z.eqb_eq in Hg. by rewrite Hg.
  - apply Z.eqb_neq in Hh. by rewrite Hh, IH.
Qed.

Lemma remove_at_split (pre : list Group.t) (g : Group.t) (post : list Group.t) :
  take (length pre) (pre ++ g :: post) ++ drop (S (length pre)) (pre ++ g :: post)
  = pre ++ post.
Proof.
  rewrite take_app_length.
  change (pre ++ g :: post) with (pre ++ [g] ++ post).
  rewrite app_assoc.
  replace (S (length pre)) with (length (pre ++ [g]))
    by (rewrite length_app; simpl; lia).
  by rewrite drop_app_length.
Qed.

(** X7: [FindGroup] answers with the first group of the queue, in arrival
    order, that carries the id; when no group of the queue carries it, the
    answer is the zero group with [false], whatever the assignment table
    holds. *)
Theorem FindGroup_first_match (repo : InMemoryGroupRepository) (groupID : Z) :
  (waiting repo groupID ->
   exists pre g post,
     groupsQueue repo = pre ++ g :: post /\
     Forall (fun h => Group.ID h <> groupID) pre /\
     Group.ID g = groupID /\
     FindGroup repo groupID = (g, true)) /\
  (~ waiting repo groupID -> FindGroup repo groupID = (Group.zero, false)).
Proof.
  unfold FindGroup.
  destruct (find_group_cases (groupsQueue repo) groupID)
    as [[Hall Hfind]|(pre & g & post & Hq & Hpre & Hg & Hfind)]; split.
  - intros Hw. by apply not_waiting_Forall in Hall.
  - intros _. exact Hfind.
  - intros _. by exists pre, g, post.
  - intros Hno. exfalso. apply Hno. exists g. split; [|exact Hg].
    rewrite Hq. apply elem_of_app. right. left.
Qed.

(** X8: the queue is first in, first out for [GetNextWaitingGroup]: however
    many groups are added afterwards, the next waiting group of a non-empty
    queue stays the one at its head, and on an empty queue the first group
    added becomes the next. *)
Theorem GetNextWaitingGroup_fifo (repo : InMemoryGroupRepository)
    (first : Group.t) (later : list Group.t) :
  GetNextWaitingGroup (foldl AddGroup (AddGroup repo first) later)
  = match groupsQueue repo with
    | [] => (first, true)
    | head :: _ => (head, true)
    end.
Proof.
  assert (Hq : forall gs r,
             groupsQueue (foldl AddGroup r gs) = groupsQueue r ++ gs).
  { induction gs as [|g gs IH]; intros r; simpl; [by rewrite app_nil_r|].
    rewrite IH. simpl. by rewrite <- app_assoc. }
  unfold GetNextWaitingGroup. rewrite Hq. simpl.
  by destruct (groupsQueue repo).
Qed.

(** X9: adding a group whose id is not waiting and removing that id again
    is a round trip: [RemoveGroup] answers [true] and the repository, queue
    and assignment table, is as before the addition. *)
Theorem AddGroup_RemoveGroup (repo : InMemoryGroupRepository) (group : Group.t) :
  ~ waiting repo (Group.ID group) ->
  RemoveGroup (AddGroup repo group) (Group.ID group) = (repo, true).
Proof.
  intros Hno. apply not_waiting_Forall in Hno.
  destruct repo as [q table]. unfold RemoveGroup, AddGroup. simpl in *.
  rewrite (index_of_tail q group [] _ Hno eq_refl).
  by rewrite remove_at_split, app_nil_r.
Qed.

Lemma AddGroup_RemoveGroup_witness :
  let repo := {| groupsQueue := [Group.mk 1 5]; groupToCar := {[ 3 := 1 ]} |} in
  RemoveGroup (AddGroup repo (Group.mk 2 2)) 2 = (repo, true).
Proof.
  intros repo. apply (AddGroup_RemoveGroup repo (Group.mk 2 2)).
  intros (g & Hin & Hid). simpl in Hin.
  apply elem_of_cons in Hin as [->|Hin]; [discriminate Hid|].
  by apply elem_of_nil in Hin.
Defined.

(** X10: for an id that is neither waiting nor riding, [RemoveGroup]
    answers [false] and changes nothing. *)
Theorem RemoveGroup_unknown_id (repo : InMemoryGroupRepository) (groupID : Z) :
  ~ waiting repo groupID ->
  ~ riding repo groupID ->
  RemoveGroup repo groupID = (repo, false).
Proof.
  intros Hnw Hnr. apply not_waiting_Forall in Hnw.
  destruct repo as [q table]. unfold RemoveGroup, riding in *. simpl in *.
  destruct (index_of_cases q groupID)
    as [[_ ->]|(pre & g & post & -> & _ & Hg & _)].
  - rewrite delete_id; [done|].
    destruct (table !! groupID) eqn:Hcar; [|done]. exfalso. by apply Hnr.
  - apply Forall_app in Hnw as [_ Hnw]. apply Forall_cons in Hnw as [Hne _].
    contradiction.
Qed.

Lemma RemoveGroup_unknown_id_witness :
  let repo := {| groupsQueue := [Group.mk 1 5]; groupToCar := {[ 3 := 1 ]} |} in
  RemoveGroup repo 2 = (repo, false).
Proof.
  intros repo. apply (RemoveGroup_unknown_id repo 2).
  - intros (g & Hin & Hid). simpl in Hin.
    apply elem_of_cons in Hin as [->|Hin]; [discriminate Hid|].
    by apply elem_of_nil in Hin.
  - intros [car Hcar]. by vm_compute in Hcar.
Defined.

(** X11: removing one id does not disturb the lookup of another: for a
    different id, [FindGroup] answers after [RemoveGroup] as it did
    before. *)
Theorem RemoveGroup_keeps_other_groups (repo : InMemoryGroupRepository)
    (groupID other : Z) :
  other <> groupID ->
  FindGroup (fst (RemoveGroup repo groupID)) other = FindGroup repo other.
Proof.
  intros Hne. unfold RemoveGroup, FindGroup.
  destruct (index_of_cases (groupsQueue repo) groupID)
    as [[_ ->]|(pre & g & post & Hq & _ & Hg & ->)]; simpl; [done|].
  rewrite Hq, remove_at_split. clear Hq.
  induction pre as [|h pre IH]; simpl.
  - destruct (Z.eqb_spec (Group.ID g) other); [congruence | done].
  - by rewrite IH.
Qed.

Lemma RemoveGroup_keeps_other_groups_witness :
  let repo := {| groupsQueue := [Group.mk 1 5; Group.mk 2 2]; groupToCar := ∅ |} in
  FindGroup (fst (RemoveGroup repo 1)) 2 = FindGroup repo 2.
Proof.
  intros repo. apply (RemoveGroup_keeps_other_groups repo 1 2). discriminate.
Defined.

(** X12: removing the id of the next waiting group takes the head off the
    queue: the rest of the queue stays in order and the assignment table is
    untouched. *)
Theorem RemoveGroup_next_waiting (repo : InMemoryGroupRepository) (next : Group.t) :
  GetNextWaitingGroup repo = (next, true) ->
  RemoveGroup repo (Group.ID next)
  = ({| groupsQueue := tail (groupsQueue repo); groupToCar := groupToCar repo |},
     true) /\
  groupsQueue repo = next :: tail (groupsQueue repo).
Proof.
  unfold GetNextWaitingGroup, RemoveGroup.
  destruct (groupsQueue repo) as [|g q]; [discriminate|].
  intros Heq. injection Heq as ->. simpl. by rewrite Z.eqb_refl.
Qed.

Lemma RemoveGroup_next_waiting_witness :
  let repo := {| groupsQueue := [Group.mk 1 5; Group.mk 2 2]; groupToCar := ∅ |} in
  RemoveGroup repo 1
  = ({| groupsQueue := [Group.mk 2 2]; groupToCar := ∅ |}, true) /\
  groupsQueue repo = [Group.mk 1 5; Group.mk 2 2].
Proof.
  intros repo. apply (RemoveGroup_next_waiting repo (Group.mk 1 5)). reflexivity.
Defined.

(** ** [AssignVehicleToGroup] on any fleet *)

Lemma first_fit_elem (fleet : list Vehicle.t) (people : Z)
    (pre : list Vehicle.t) (v : Vehicle.t) (post : list Vehicle.t) :
  first_fit fleet people pre v post -> v ∈ fleet /\ fits people v.
Proof.
  intros (-> & _ & Hv). split; [|exact Hv]. apply elem_of_app. right. left.
Qed.

(** X13: on every fleet, duplicate ids or not, the scan answers [true]
    exactly when some vehicle has enough seats; it then names a vehicle of
    the fleet that fits and emits one [VehicleAssigned] event with the
    group's id and that vehicle's id.  When no vehicle fits it answers
    [(0, false)], emits nothing and leaves the repository as it was. *)
Theorem AssignVehicleToGroup_answer (repo : InMemoryVehicleRepository)
    (group : Group.t) :
  ((exists u, u ∈ vehicles repo /\ fits (Group.People group) u) ->
   exists v,
     v ∈ vehicles repo /\ fits (Group.People group) v /\
     answer (AssignVehicleToGroup repo group) = (Vehicle.ID v, true) /\
     snd (fst (AssignVehicleToGroup repo group))
     = [VehicleAssigned group (Vehicle.ID v)]) /\
  (~ (exists u, u ∈ vehicles repo /\ fits (Group.People group) u) ->
   AssignVehicleToGroup repo group = (repo, [], (0, false))).
Proof.
  split.
  - intros Hex. destruct (first_fit_exists _ _ Hex) as (pre & v & post & Hff).
    exists v. destruct (first_fit_elem _ _ _ _ _ Hff) as [Hin Hfit].
    by rewrite (assign_fit _ _ _ _ _ Hff).
  - intros Hno. apply assign_no_fit. apply Forall_forall. intros u Hin.
    destruct (Z_lt_le_dec (Vehicle.Seats u) (Group.People group)) as [Hlt|Hle];
      [exact Hlt|].
    exfalso. apply Hno. by exists u.
Qed.

(** X14: an assignment never adds, drops, reorders or renames a vehicle:
    the ids of the fleet are the same list after the scan as before, on
    every fleet and for every group. *)
Theorem AssignVehicleToGroup_keeps_ids (repo : InMemoryVehicleRepository)
    (group : Group.t) :
  vehicle_ids (fleet_after (AssignVehicleToGroup repo group))
  = vehicle_ids (vehicles repo).
Proof.
  unfold AssignVehicleToGroup, fleet_after.
  destruct (assign_scan_cases repo group (GetAllVehicles repo))
    as [[_ ->]|(pre & v & post & _ & ->)]; simpl; [done|].
  apply update_seats_ids.
Qed.

Lemma total_seats_app (a b : list Vehicle.t) :
  total_seats (a ++ b) = total_seats a + total_seats b.
Proof.
  unfold total_seats. induction a as [|v a IH]; simpl; [done|].
  rewrite IH. lia.
Qed.

(** X15: seats are conserved.  In a fleet with pairwise distinct ids, when
    some vehicle fits the group and no subtraction can overflow, the seats
    left in the whole fleet go down by exactly the group's people count. *)
Theorem AssignVehicleToGroup_total_seats (repo : InMemoryVehicleRepository)
    (group : Group.t) :
  NoDup (vehicle_ids (vehicles repo)) ->
  (exists u, u ∈ vehicles repo /\ fits (Group.People group) u) ->
  Forall (fun u => Vehicle.Seats u - Group.People group <= GoInt.max_int)
    (vehicles repo) ->
  total_seats (fleet_after (AssignVehicleToGroup repo group))
  = total_seats (vehicles repo) - Group.People group.
Proof.
  intros Hnd Hex Hmax.
  destruct (first_fit_exists _ _ Hex) as (pre & v & post & Hff).
  rewrite (assign_fit _ _ _ _ _ Hff). unfold fleet_after. simpl.
  destruct Hff as (Hsplit & _ & Hv). rewrite Hsplit in Hnd, Hmax |- *.
  rewrite update_seats_first by (by apply (NoDup_ids_before pre v post)).
  apply Forall_app in Hmax as [_ Hmax]. apply Forall_cons in Hmax as [Hvmax _].
  rewrite !total_seats_app. unfold total_seats at 2 4. simpl.
  assert (GoInt.min_int <= 0) by (by vm_compute).
  rewrite GoInt_sub_exact by lia. unfold total_seats. lia.
Qed.

Lemma AssignVehicleToGroup_total_seats_witness :
  let repo := {| vehicles := [Vehicle.mk 1 2; Vehicle.mk 2 6; Vehicle.mk 3 5] |} in
  let group := Group.mk 7 4 in
  total_seats (fleet_after (AssignVehicleToGroup repo group)) = 13 - 4.
Proof.
  intros repo group. apply (AssignVehicleToGroup_total_seats repo group).
  - simpl. compute_done.
  - exists (Vehicle.mk 2 6). split; [| unfold fits; simpl; lia].
    simpl. apply list_elem_of_further, list_elem_of_here.
  - repeat constructor; by vm_compute.
Defined.

(** ** The handlers, one request at a time *)

Lemma journey_handler_cases (app : App) (group : Group.t) :
  (Forall (fun u => Vehicle.Seats u < Group.People group) (vehicles (vehicleRepo app)) /\
   journey_handler app group
   = ({| vehicleRepo := vehicleRepo app;
         groupRepo := AddGroup (groupRepo app) group;
         events := events app |},
      AddedToWaitlist))
  \/
  (exists pre v post,
     first_fit (vehicles (vehicleRepo app)) (Group.People group) pre v post /\
     journey_handler app group
     = ({| vehicleRepo :=
             UpdateVehicleSeats (vehicleRepo app) (Vehicle.ID v)
               (GoInt.sub (Vehicle.Seats v) (Group.People group));
           groupRepo :=
             {| groupsQueue := groupsQueue (groupRepo app);
                groupToCar :=
                  <[Group.ID group := Vehicle.ID v]> (groupToCar (groupRepo app)) |};
           events := events app ++ [VehicleAssigned group (Vehicle.ID v)] |},
        JourneyStarted (Vehicle.ID v))).
Proof.
  unfold journey_handler, AssignVehicleToGroup, GetAllVehicles.
  destruct (assign_scan_cases (vehicleRepo app) group (vehicles (vehicleRepo app)))
    as [[Hall ->]|(pre & v & post & Hff & ->)].
  - left. split; [exact Hall|]. by rewrite app_nil_r.
  - right. by exists pre, v, post.
Qed.

(** X16: a journey that starts can be located at once, and one that is put
    on the waitlist cannot be told from before: after "Journey started"
    with a car id, [POST /locate] for the group's id answers that car id;
    after "Added to waitlist" it answers what it would have answered before
    the request.  [POST /journey] has no third answer. *)
Theorem journey_then_locate (app : App) (group : Group.t) :
  (exists carID,
     snd (journey_handler app group) = JourneyStarted carID /\
     snd (locate_handler (fst (journey_handler app group)) (Group.ID group))
     = Located carID)
  \/
  (snd (journey_handler app group) = AddedToWaitlist /\
   snd (locate_handler (fst (journey_handler app group)) (Group.ID group))
   = snd (locate_handler app (Group.ID group))).
Proof.
  destruct (journey_handler_cases app group)
    as [[_ ->]|(pre & v & post & _ & ->)].
  - right. split; [done|]. unfold locate_handler. simpl.
    by destruct (groupToCar (groupRepo app) !! Group.ID group).
  - left. exists (Vehicle.ID v). split; [done|].
    unfold locate_handler. simpl. by rewrite lookup_insert_eq.
Qed.

(** X17: a second drop-off of the same id, right after the first, always
    answers "Group not found" and changes nothing, whatever the first one
    did. *)
Theorem dropoff_twice (app : App) (id : Z) :
  dropoff_handler (fst (dropoff_handler app id)) id
  = (fst (dropoff_handler app id), GroupNotFound).
Proof.
  apply dropoff_miss.
  destruct (groupToCar (groupRepo app) !! id) as [carID|] eqn:Hcar.
  - rewrite (dropoff_riding _ _ _ Hcar). simpl. apply lookup_delete_eq.
  - by rewrite (dropoff_miss _ _ Hcar).
Qed.



Lemma seats_of_update_other (fleet : list Vehicle.t) (vehicleID seats other : Z) :
  other <> vehicleID ->
  seats_of (update_seats fleet vehicleID seats) other = seats_of fleet other.
Proof.
  intros Hne. induction fleet as [|v fleet IH]; simpl; [done|].
  destruct (Z.eqb_spec (Vehicle.ID v) vehicleID) as [Heq|Hne']; simpl.
  - destruct (Z.eqb_spec (Vehicle.ID v) other); [congruence | done].
  - by rewrite IH.
Qed.

(** X25: a journey that starts changes the seats of the car it answers
    with and of no other: the seats read under any other vehicle id are
    what they were. *)
Theorem journey_keeps_other_vehicles (app : App) (group : Group.t)
    (carID other : Z) :
  snd (journey_handler app group) = JourneyStarted carID ->
  other <> carID ->
  seats_of (vehicles (vehicleRepo (fst (journey_handler app group)))) other
  = seats_of (vehicles (vehicleRepo app)) other.
Proof.
  destruct (journey_handler_cases app group)
    as [[_ ->]|(pre & v & post & _ & ->)]; simpl; [discriminate|].
  intros [= <-] Hne. by apply seats_of_update_other.
Qed.

Lemma journey_keeps_other_vehicles_witness :
  let app := run initial [PutEvs [Vehicle.mk 1 4; Vehicle.mk 2 6]] in
  seats_of (vehicles (vehicleRepo (fst (journey_handler app (Group.mk 1 3))))) 2
  = seats_of (vehicles (vehicleRepo app)) 2.
Proof.
  intros app. apply (journey_keeps_other_vehicles app (Group.mk 1 3) 1 2).
  - by vm_compute.
  - discriminate.
Defined.

(** X26: a drop-off writes the seats of the car the group was assigned and
    of no other: the seats read under any other vehicle id are what they
    were. *)
Theorem dropoff_keeps_other_vehicles (app : App) (id carID other : Z) :
  groupToCar (groupRepo app) !! id = Some carID ->
  other <> carID ->
  seats_of (vehicles (vehicleRepo (fst (dropoff_handler app id)))) other
  = seats_of (vehicles (vehicleRepo app)) other.
Proof.
  intros Hcar Hne. rewrite (dropoff_riding _ _ _ Hcar). simpl.
  by apply seats_of_update_other.
Qed.

Lemma dropoff_keeps_other_vehicles_witness :
  let app := run initial [PutEvs [Vehicle.mk 1 4; Vehicle.mk 2 6];
                          PostJourney (Group.mk 1 3); PostJourney (Group.mk 2 5)] in
  seats_of (vehicles (vehicleRepo (fst (dropoff_handler app 1)))) 2 = Some 1.
Proof.
  intros app.
  assert (Hkept := dropoff_keeps_other_vehicles app 1 1 2
                     ltac:(by vm_compute) ltac:(discriminate)).
  by rewrite Hkept.
Defined.

(** ** The handlers along a run *)

Lemma run_app (app : App) (reqs1 reqs2 : list Request) :
  run app (reqs1 ++ reqs2) = run (run app reqs1) reqs2.
Proof.
  revert app. induction reqs1 as [|req reqs1 IH]; intros app; simpl; [done|].
  apply IH.
Qed.

Lemma handle_keeps_ids (app : App) (req : Request) :
  is_PutEvs req = false ->
  vehicle_ids (vehicles (vehicleRepo (fst (handle app req))))
  = vehicle_ids (vehicles (vehicleRepo app)).
Proof.
  destruct req as [vs|g|id|id]; simpl; [discriminate| | |]; intros _.
  - destruct (journey_handler_cases app g)
      as [[_ ->]|(pre & v & post & _ & ->)]; simpl; [done|].
    apply update_seats_ids.
  - destruct (groupToCar (groupRepo app) !! id) as [carID|] eqn:Hcar.
    + rewrite (dropoff_riding _ _ _ Hcar). simpl. apply update_seats_ids.
    + by rewrite (dropoff_miss _ _ Hcar).
  - unfold locate_handler. by destruct (groupToCar (groupRepo app) !! id).
Qed.

Lemma run_keeps_registered_ids (reqs : list Request) (caps : list Vehicle.t)
    (app : App) :
  vehicle_ids (vehicles (vehicleRepo app)) = vehicle_ids caps ->
  vehicle_ids (vehicles (vehicleRepo (run app reqs)))
  = vehicle_ids (registered_from caps reqs).
Proof.
  revert caps app.
  induction reqs as [|req reqs IH]; intros caps app Hids; simpl; [exact Hids|].
  destruct req as [vs|g|id|id].
  - by apply IH.
  - apply IH. by rewrite handle_keeps_ids.
  - apply IH. by rewrite handle_keeps_ids.
  - apply IH. by rewrite handle_keeps_ids.
Qed.

(** X19: along every run from the initial memory, whatever the payloads,
    the fleet has the vehicles of the last [PUT /evs], by id and in order:
    no journey, drop-off or locate request adds, drops, reorders or renames
    a vehicle. *)
Theorem run_fleet_is_registered (reqs : list Request) :
  vehicle_ids (vehicles (vehicleRepo (run initial reqs)))
  = vehicle_ids (registered reqs).
Proof. by apply run_keeps_registered_ids. Qed.

Lemma handle_assigned_cars_in_fleet (app : App) (req : Request) :
  assigned_cars_in_fleet app ->
  assigned_cars_in_fleet (fst (handle app req)).
Proof.
  intros Hinv. destruct req as [vs|g|id|id]; simpl.
  - intros id carID Hcar. simpl in Hcar. by rewrite lookup_empty in Hcar.
  - destruct (journey_handler_cases app g)
      as [[_ ->]|(pre & v & post & Hff & ->)]; [exact Hinv|].
    intros id carID. simpl. rewrite update_seats_ids.
    destruct (decide (Group.ID g = id)) as [<-|Hne].
    + rewrite lookup_insert_eq. intros [= <-].
      apply list_elem_of_fmap. exists v. split; [done|].
      by destruct (first_fit_elem _ _ _ _ _ Hff).
    + rewrite lookup_insert_ne by done. apply Hinv.
  - destruct (groupToCar (groupRepo app) !! id) as [carID|] eqn:Hcar.
    + rewrite (dropoff_riding _ _ _ Hcar). intros id' carID'. simpl.
      rewrite update_seats_ids.
      destruct (decide (id = id')) as [<-|Hne].
      * by rewrite lookup_delete_eq.
      * rewrite lookup_delete_ne by done. apply Hinv.
    + by rewrite (dropoff_miss _ _ Hcar).
  - unfold locate_handler. by destruct (groupToCar (groupRepo app) !! id).
Qed.

(** X20: along every run from the initial memory, whatever the payloads,
    every car id in the assignment table is the id of a vehicle of the
    current fleet; [POST /locate] never answers with a car the fleet does
    not have. *)
Theorem run_assigned_cars_in_fleet (reqs : list Request) :
  assigned_cars_in_fleet (run initial reqs) /\
  (forall id carID,
     snd (locate_handler (run initial reqs) id) = Located carID ->
     carID ∈ vehicle_ids (vehicles (vehicleRepo (run initial reqs)))).
Proof.
  assert (Hinv : assigned_cars_in_fleet (run initial reqs)).
  { assert (Hgen : forall app, assigned_cars_in_fleet app ->
                               assigned_cars_in_fleet (run app reqs)).
    { induction reqs as [|req reqs IH]; intros app Happ; simpl; [exact Happ|].
      apply IH. by apply handle_assigned_cars_in_fleet. }
    apply Hgen. intros id carID Hcar. simpl in Hcar.
    by rewrite lookup_empty in Hcar. }
  split; [exact Hinv|]. intros id carID. unfold locate_handler.
  destruct (groupToCar (groupRepo (run initial reqs)) !! id) as [c|] eqn:Hcar;
    simpl; [|discriminate].
  intros [= <-]. by apply (Hinv id).
Qed.

Lemma handle_queue_grows (app : App) (req : Request) :
  is_PutEvs req = false ->
  groupsQueue (groupRepo (fst (handle app req)))
  = groupsQueue (groupRepo app) ++ waitlisted app [req].
Proof.
  destruct req as [vs|g|id|id]; simpl; [discriminate| | |]; intros _.
  - destruct (journey_handler_cases app g)
      as [[_ ->]|(pre & v & post & _ & ->)]; simpl; [done|].
    by rewrite app_nil_r.
  - destruct (groupToCar (groupRepo app) !! id) as [carID|] eqn:Hcar.
    + rewrite (dropoff_riding _ _ _ Hcar). simpl. by rewrite app_nil_r.
    + rewrite (dropoff_miss _ _ Hcar). simpl. by rewrite app_nil_r.
  - unfold locate_handler.
    destruct (groupToCar (groupRepo app) !! id); simpl; by rewrite app_nil_r.
Qed.

(** X21: waiting groups are never promoted or dropped.  Along a run with no
    [PUT /evs], from any memory, the queue only grows at its tail, by the
    groups answered "Added to waitlist" and in that order; a group that
    waits keeps waiting, whatever seats drop-offs free. *)
Theorem run_queue_only_grows (app : App) (reqs : list Request) :
  Forall (fun req => is_PutEvs req = false) reqs ->
  groupsQueue (groupRepo (run app reqs))
  = groupsQueue (groupRepo app) ++ waitlisted app reqs /\
  (forall id, waiting (groupRepo app) id -> waiting (groupRepo (run app reqs)) id).
Proof.
  intros Hreqs.
  assert (Hq : groupsQueue (groupRepo (run app reqs))
               = groupsQueue (groupRepo app) ++ waitlisted app reqs).
  { revert app. induction Hreqs as [|req reqs Hreq _ IH]; intros app; simpl.
    - by rewrite app_nil_r.
    - rewrite IH, (handle_queue_grows _ _ Hreq), <- app_assoc. f_equal.
      simpl. destruct req as [vs|g|id|id]; try done.
      by destruct (snd (journey_handler app g)). }
  split; [exact Hq|].
  intros id (g & Hin & Hid). exists g. split; [|exact Hid].
  rewrite Hq. apply elem_of_app. by left.
Qed.

Lemma run_queue_only_grows_witness :
  let app := run initial [PutEvs [Vehicle.mk 1 4]; PostJourney (Group.mk 1 3);
                          PostJourney (Group.mk 2 2)] in
  let reqs := [PostDropoff 1; PostLocate 2; PostJourney (Group.mk 3 9)] in
  groupsQueue (groupRepo (run app reqs)) = [Group.mk 2 2; Group.mk 3 9] /\
  (forall id, waiting (groupRepo app) id -> waiting (groupRepo (run app reqs)) id).
Proof.
  intros app reqs.
  destruct (run_queue_only_grows app reqs) as [Hq Hw].
  - repeat constructor.
  - split; [|exact Hw]. rewrite Hq. by vm_compute.
Defined.

(** X22: the events are the journeys started.  Along every run, from any
    memory, no event is ever dropped, and the events added are, in order,
    one per "Journey started" answer, each with the id of the group of the
    request and the car id of the answer. *)
Theorem run_events_are_journeys (app : App) (reqs : list Request) :
  map event_pair (events (run app reqs))
  = map event_pair (events app) ++ started app reqs.
Proof.
  revert app. induction reqs as [|req reqs IH]; intros app; simpl.
  - by rewrite app_nil_r.
  - rewrite IH. destruct req as [vs|g|id|id]; simpl.
    + done.
    + destruct (journey_handler_cases app g)
        as [[_ ->]|(pre & v & post & _ & ->)]; simpl; [done|].
      by rewrite map_app, <- app_assoc.
    + destruct (groupToCar (groupRepo app) !! id) as [carID|] eqn:Hcar.
      * by rewrite (dropoff_riding _ _ _ Hcar).
      * by rewrite (dropoff_miss _ _ Hcar).
    + unfold locate_handler. by destruct (groupToCar (groupRepo app) !! id).
Qed.

(** X23: locating is read-only: a [POST /locate] anywhere in a run can be
    left out without changing the memory the run ends in. *)
Theorem run_without_locate (app : App) (before after : list Request) (id : Z) :
  run app (before ++ PostLocate id :: after) = run app (before ++ after).
Proof.
  rewrite !run_app. simpl. f_equal. unfold locate_handler.
  by destruct (groupToCar (groupRepo (run app before)) !! id).
Qed.

(** ** The event bus *)

Lemma Emit_Register_one {L : Type} (eb : EventBus L) (eventType : string)
    (listener : L) (event : Event) :
  Emit (Register eb eventType listener) event
  = if decide (Type_ event = eventType)
    then Emit eb event ++ [(listener, event)]
    else Emit eb event.
Proof.
  unfold Emit, Register. simpl. destruct (decide (Type_ event = eventType)) as [->|Hne].
  - rewrite lookup_insert_eq.
    destruct (listeners eb !! eventType); simpl; [|done]. by rewrite map_app.
  - by rewrite lookup_insert_ne.
Qed.

(** X24: [Emit] starts exactly the listeners registered under the event's
    type, in the order they were registered.  After any bus registers the
    listeners [added] under one type, an event of that type goes to the
    listeners the bus already had for it and then to [added], in order; an
    event of any other type goes where it went before. *)
Theorem Emit_after_Register {L : Type} (eb : EventBus L) (eventType : string)
    (added : list L) (event : Event) :
  Emit (foldl (fun bus listener => Register bus eventType listener) eb added) event
  = if decide (Type_ event = eventType)
    then Emit eb event ++ map (fun listener => (listener, event)) added
    else Emit eb event.
Proof.
  revert eb. induction added as [|l added IH]; intros eb; simpl.
  - destruct (decide (Type_ event = eventType)); [by rewrite app_nil_r | done].
  - rewrite IH, Emit_Register_one.
    destruct (decide (Type_ event = eventType)); [|done].
    by rewrite <- app_assoc.
Qed.

Lemma handle_events_typed (app : App) (req : Request) :
  Forall (fun e => Type_ e = "VehicleAssigned"%string) (events app) ->
  Forall (fun e => Type_ e = "VehicleAssigned"%string) (events (fst (handle app req))).
Proof.
  intros Hev. destruct req as [vs|g|id|id]; simpl.
  - exact Hev.
  - destruct (journey_handler_cases app g)
      as [[_ ->]|(pre & v & post & _ & ->)]; simpl; [exact Hev|].
    apply Forall_app. split; [exact Hev|]. by constructor.
  - destruct (groupToCar (groupRepo app) !! id) as [carID|] eqn:Hcar.
    + by rewrite (dropoff_riding _ _ _ Hcar).
    + by rewrite (dropoff_miss _ _ Hcar).
  - unfold locate_handler. by destruct (groupToCar (groupRepo app) !! id).
Qed.

(** X27: on the bus [main] builds, with its one listener under
    "VehicleAssigned", every event of every run from the initial memory
    reaches that listener exactly once: the service emits no event of a
    type the bus has no listener for. *)
Theorem main_bus_dispatches_every_event {L : Type} (listener : L)
    (reqs : list Request) :
  dispatched (main_bus listener) (events (run initial reqs))
  = map (fun e => (listener, e)) (events (run initial reqs)).
Proof.
  assert (Htyped : Forall (fun e => Type_ e = "VehicleAssigned"%string)
                     (events (run initial reqs))).
  { assert (Hgen : forall app,
              Forall (fun e => Type_ e = "VehicleAssigned"%string) (events app) ->
              Forall (fun e => Type_ e = "VehicleAssigned"%string)
                (events (run app reqs))).
    { induction reqs as [|req reqs IH]; intros app Happ; simpl; [exact Happ|].
      apply IH. by apply handle_events_typed. }
    apply Hgen. constructor. }
  unfold dispatched.
  induction Htyped as [|e evs He _ IH]; simpl; [done|].
  rewrite IH. f_equal.
  unfold main_bus. rewrite Emit_Register_one, He.
  destruct (decide ("VehicleAssigned"%string = "VehicleAssigned"%string)); [|done].
  unfold Emit. simpl. by rewrite lookup_empty.
Qed.
